(** * Federated search: backend controller, highlighter and session controller

    A shallow embedding of
      - [backend/controllers/searchController.js] ([globalSearch]),
      - the React component file ([HighlightedText] and [App]),
    together with the parts of the JavaScript runtime they rely on
    ([String.prototype.trim], [Array.prototype.sort], [RegExp],
    [String.prototype.split]).

    Strings are sequences of code units.  The development covers code
    units below 256 (one [ascii] per code unit, read as Latin-1). *)

From Stdlib Require Import List Arith Bool Ascii String QArith ZArith Lia.
From Stdlib Require Import Sorted Permutation.
Import ListNotations.

Close Scope Q_scope.
Close Scope Z_scope.
Open Scope nat_scope.

Set Implicit Arguments.

(* ===================================================================== *)
(** ** JavaScript runtime: strings and arrays *)
(* ===================================================================== *)

Module JS.

(** A JavaScript string: the list of its code units. *)
Definition str := list ascii.

(** String literals of the source are written [lit "..."]. *)
Definition lit (s : string) : str := list_ascii_of_string s.

Definition code (c : ascii) : nat := nat_of_ascii c.

Definition str_eqb (a b : str) : bool :=
  if list_eq_dec ascii_dec a b then true else false.

(** WhiteSpace and LineTerminator code units below 256: TAB, LF, VT, FF,
    CR, SP and NBSP.  This is the set removed by [trim] and matched by
    the pattern class [\s]. *)
Definition is_white_space (c : ascii) : bool :=
  let n := code c in
  ((9 <=? n) && (n <=? 13)) || (n =? 32) || (n =? 160).

Fixpoint trim_start (s : str) : str :=
  match s with
  | [] => []
  | c :: s' => if is_white_space c then trim_start s' else s
  end.

Definition trim_end (s : str) : str := rev (trim_start (rev s)).

(** [String.prototype.trim]. *)
Definition trim (s : str) : str := trim_end (trim_start s).

(** [s.split(/\s+/)]: the pieces of [s] between maximal runs of white
    space.  [cur] holds the piece being read, [in_ws] tells that the
    previous code unit was white space (the separator run is still
    open). *)
Fixpoint split_ws_from (cur : str) (in_ws : bool) (s : str) : list str :=
  match s with
  | [] => [cur]
  | c :: s' =>
      if is_white_space c
      then if in_ws then split_ws_from cur true s'
           else cur :: split_ws_from [] true s'
      else split_ws_from (cur ++ [c]) false s'
  end.

Definition split_whitespace (s : str) : list str := split_ws_from [] false s.

(** [Array.prototype.join]. *)
Fixpoint join (sep : str) (l : list str) : str :=
  match l with
  | [] => []
  | [a] => a
  | a :: l' => a ++ sep ++ join sep l'
  end.

(** The sign of the number a comparator returns. *)
Definition sign_Z (z : Z) : comparison := Z.compare z 0.
Definition sign_Q (q : Q) : comparison := Qcompare q 0.

Section ArraySort.
Variable A : Type.
(** [cmp a b] is the sign of [comparefn(a, b)]; [Gt] asks for [b]
    before [a]. *)
Variable cmp : A -> A -> comparison.

Definition comes_after (a b : A) : bool :=
  match cmp a b with Gt => true | _ => false end.

(** Insert [x], which stood before every element of the sorted [l] in
    the array, as far left as the comparator allows. *)
Fixpoint sort_insert (x : A) (l : list A) : list A :=
  match l with
  | [] => [x]
  | y :: l' => if comes_after x y then y :: sort_insert x l' else x :: l
  end.

(** [Array.prototype.sort(comparefn)].  The language requires the sort
    to be stable; for a consistent comparator the result is then
    unique, and this insertion sort computes it. *)
Fixpoint Array_sort (l : list A) : list A :=
  match l with
  | [] => []
  | x :: l' => sort_insert x (Array_sort l')
  end.
End ArraySort.

End JS.
Import JS.


(* ===================================================================== *)
(** ** Backend: [searchController.js] *)
(* ===================================================================== *)

Module Backend.

(** *** The world a request handler runs in

    A handler is an [async] function: every [await] suspends it until
    the awaited operation has completed.  The world records the clock
    (in milliseconds) and the queries issued to the data sources. *)

Inductive event :=
| Dispatched (collection : string) (time : nat)
| Completed (collection : string) (time : nat).

Record world := { now : nat; trace : list event }.

Inductive outcome (A : Type) :=
| Return (a : A)
| Throw (message : str).
Arguments Return {A} a.
Arguments Throw {A} message.

Definition M (A : Type) := world -> outcome A * world.

Definition ret {A} (a : A) : M A := fun w => (Return a, w).
Definition throw {A} (message : str) : M A := fun w => (Throw message, w).
Definition bind {A B} (c : M A) (k : A -> M B) : M B :=
  fun w => match c w with
           | (Return a, w') => k a w'
           | (Throw e, w') => (Throw e, w')
           end.
(** [try { c } catch (error) { handler(error.message) }] *)
Definition try_catch {A} (c : M A) (handler : str -> M A) : M A :=
  fun w => match c w with
           | (Return a, w') => (Return a, w')
           | (Throw e, w') => handler e w'
           end.

Declare Scope js_scope.
Delimit Scope js_scope with js.
Notation "'await' x <- c ;; k" := (bind c (fun x => k))
  (at level 61, x name, c at next level, right associativity) : js_scope.
Local Open Scope js_scope.

(** *** Documents and Mongoose models *)

(** A hydrated Product document.  [name] and [description] are required
    by the schema, [category] and [price] are not; a field left out by
    the projection reads as [undefined] ([None]).  [p_score] is the
    path a [$meta] projection would fill. *)
Record ProductDoc := {
  p_id : nat;
  p_name : option str;
  p_description : option str;
  p_category : option str;
  p_price : option Q;
  p_score : option Q
}.

Record ArticleDoc := {
  a_id : nat;
  a_title : option str;
  a_content : option str;
  a_author : option str;
  a_tags : option (list str);
  a_score : option Q
}.

(** [{ field: { $regex: pattern, $options: options } }] *)
Record regex_cond := {
  cond_field : string;
  cond_regex : str;
  cond_options : string
}.

(** [{ $or: [ ... ] }] *)
Definition or_filter := list regex_cond.

(** An inclusion projection [{ f1: 1, f2: 1, ... }]. *)
Definition projection := list string.

(** What the controller uses of a Mongoose model. *)
Record Model (Doc : Type) := {
  find : or_filter -> projection -> M (list Doc)
}.

(** *** Requests and responses *)

(** [req.query.q] as the query-string parser delivers it: absent, a
    string, or (for [?q[]=..] and [?q[k]=..]) an array or object. *)
Inductive query_param :=
| QUndefined
| QString (s : str)
| QOther.

Record request := { query_q : query_param }.

(** The objects of the merged [results] array. *)
Inductive result :=
| product_result (id : nat) (name description category : option str)
                 (price : option Q) (score : Q)
| article_result (id : nat) (title content author : option str)
                 (tags : option (list str)) (score : Q).

Definition result_type (r : result) : string :=
  match r with
  | product_result _ _ _ _ _ _ => "product"
  | article_result _ _ _ _ _ _ => "article"
  end.

Definition result_score (r : result) : Q :=
  match r with
  | product_result _ _ _ _ _ s => s
  | article_result _ _ _ _ _ s => s
  end.

Inductive json :=
| JBool (b : bool)
| JNum (n : nat)
| JStr (s : str)
| JResults (l : list result).

(** [res.status(code).json(body)]; [body] lists the keys of the object
    literal in source order. *)
Record response := { status : nat; body : list (string * json) }.

Fixpoint body_get (k : string) (b : list (string * json)) : option json :=
  match b with
  | [] => None
  | (k', v) :: b' => if String.eqb k k' then Some v else body_get k b'
  end.

(** [x ?? d] *)
Definition nullish {A} (x : option A) (d : A) : A :=
  match x with Some v => v | None => d end.

(** *** [globalSearch] *)

Definition product_filter (searchTerm : str) : or_filter :=
  [ {| cond_field := "name"; cond_regex := searchTerm; cond_options := "i" |};
    {| cond_field := "description"; cond_regex := searchTerm; cond_options := "i" |};
    {| cond_field := "category"; cond_regex := searchTerm; cond_options := "i" |} ].

Definition product_projection : projection :=
  ["name"; "description"; "category"; "price"]%string.

Definition article_filter (searchTerm : str) : or_filter :=
  [ {| cond_field := "title"; cond_regex := searchTerm; cond_options := "i" |};
    {| cond_field := "content"; cond_regex := searchTerm; cond_options := "i" |};
    {| cond_field := "author"; cond_regex := searchTerm; cond_options := "i" |} ].

Definition article_projection : projection :=
  ["title"; "content"; "author"; "tags"]%string.

Definition of_product (p : ProductDoc) : result :=
  product_result (p_id p) (p_name p) (p_description p) (p_category p)
                 (p_price p) (nullish (p_score p) 0%Q).

Definition of_article (a : ArticleDoc) : result :=
  article_result (a_id a) (a_title a) (a_content a) (a_author a)
                 (a_tags a) (nullish (a_score a) 0%Q).

(** [[...products.map(..), ...articles.map(..)]] *)
Definition combine (products : list ProductDoc) (articles : list ArticleDoc)
  : list result :=
  map of_product products ++ map of_article articles.

(** [(a, b) => b.score - a.score].  Scores are finite numbers, held as
    rationals: the difference of two finite floating-point numbers has
    the sign of their exact difference. *)
Definition by_score (a b : result) : comparison :=
  sign_Q (result_score b - result_score a).

Definition double_quote : ascii := ascii_of_nat 34.

Definition required_message : str :=
  lit "Search term is required. Use ?q=your-search-term".

Definition bad_request : response :=
  {| status := 400;
     body := [("success", JBool false); ("message", JStr required_message)]%string |}.

Definition no_results (searchTerm : str) : response :=
  {| status := 200;
     body := [("success", JBool true);
              ("count", JNum 0);
              ("message", JStr (lit "No results found for " ++ [double_quote]
                                  ++ searchTerm ++ [double_quote])%list);
              ("results", JResults [])]%string |}.

Definition found (searchTerm : str) (results : list result) : response :=
  {| status := 200;
     body := [("success", JBool true);
              ("count", JNum (List.length results));
              ("query", JStr searchTerm);
              ("results", JResults results)]%string |}.

Definition server_error (message : str) : response :=
  {| status := 500;
     body := [("success", JBool false);
              ("message", JStr (lit "Server error occurred"));
              ("error", JStr message)]%string |}.

Definition globalSearch (Product : Model ProductDoc) (Article : Model ArticleDoc)
    (req : request) : M response :=
  try_catch
    (match query_q req with
     | QUndefined => ret bad_request
     | QOther => throw (lit "searchTerm.trim is not a function")
     | QString searchTerm =>
         if (List.length searchTerm =? 0) || str_eqb (trim searchTerm) []
         then ret bad_request
         else
           await products <- find Product (product_filter searchTerm) product_projection ;;
           await articles <- find Article (article_filter searchTerm) article_projection ;;
           let results := Array_sort by_score (combine products articles) in
           if List.length results =? 0
           then ret (no_results searchTerm)
           else ret (found searchTerm results)
     end)
    (fun message => ret (server_error message)).

(** *** Collections behind the models

    A collection holds its documents, answers a query after [latency]
    milliseconds, and may be unreachable.  The server's pattern matcher
    is a parameter: [engine pattern options] is [None] when the server
    rejects the pattern, and otherwise the test it performs on a field
    value. *)

Record Collection (Doc : Type) := {
  coll_name : string;
  documents : list Doc;
  latency : nat;
  failure : option str
}.

Definition regex_engine := str -> string -> option (str -> bool).

Definition product_text (field : string) (d : ProductDoc) : option str :=
  if String.eqb field "name" then p_name d
  else if String.eqb field "description" then p_description d
  else if String.eqb field "category" then p_category d
  else None.

Definition article_text (field : string) (d : ArticleDoc) : option str :=
  if String.eqb field "title" then a_title d
  else if String.eqb field "content" then a_content d
  else if String.eqb field "author" then a_author d
  else None.

Definition included (p : projection) (field : string) : bool :=
  existsb (String.eqb field) p.

Definition keep {A} (p : projection) (field : string) (v : option A) : option A :=
  if included p field then v else None.

(** [_id] is always returned; every other path only when listed. *)
Definition project_product (p : projection) (d : ProductDoc) : ProductDoc :=
  {| p_id := p_id d;
     p_name := keep p "name" (p_name d);
     p_description := keep p "description" (p_description d);
     p_category := keep p "category" (p_category d);
     p_price := keep p "price" (p_price d);
     p_score := keep p "score" (p_score d) |}.

Definition project_article (p : projection) (d : ArticleDoc) : ArticleDoc :=
  {| a_id := a_id d;
     a_title := keep p "title" (a_title d);
     a_content := keep p "content" (a_content d);
     a_author := keep p "author" (a_author d);
     a_tags := keep p "tags" (a_tags d);
     a_score := keep p "score" (a_score d) |}.

Section Mongo.
Variable engine : regex_engine.
Variable Doc : Type.
Variable text_of : string -> Doc -> option str.
Variable project : projection -> Doc -> Doc.

(** The compiled form of a filter: one test per alternative, or
    [None] when a pattern is rejected. *)
Fixpoint compile_filter (f : or_filter) : option (list (string * (str -> bool))) :=
  match f with
  | [] => Some []
  | c :: f' =>
      match engine (cond_regex c) (cond_options c), compile_filter f' with
      | Some test, Some tests => Some ((cond_field c, test) :: tests)
      | _, _ => None
      end
  end.

Definition satisfies (tests : list (string * (str -> bool))) (d : Doc) : bool :=
  existsb (fun ft => match text_of (fst ft) d with
                     | Some v => snd ft v
                     | None => false
                     end) tests.

Definition dispatch (name : string) : M unit :=
  fun w => (Return tt, {| now := now w; trace := trace w ++ [Dispatched name (now w)] |}).

Definition complete (name : string) (after : nat) : M unit :=
  fun w => (Return tt, {| now := now w + after;
                          trace := trace w ++ [Completed name (now w + after)] |}).

Definition collection_find (c : Collection Doc) (f : or_filter) (p : projection)
  : M (list Doc) :=
  await _ <- dispatch (coll_name c) ;;
  await _ <- complete (coll_name c) (latency c) ;;
  match failure c with
  | Some message => throw message
  | None =>
      match compile_filter f with
      | None => throw (lit "Regular expression is invalid")
      | Some tests => ret (map (project p) (filter (satisfies tests) (documents c)))
      end
  end.
End Mongo.

Definition Product_model (engine : regex_engine) (c : Collection ProductDoc)
  : Model ProductDoc :=
  {| find := collection_find engine product_text project_product c |}.

Definition Article_model (engine : regex_engine) (c : Collection ArticleDoc)
  : Model ArticleDoc :=
  {| find := collection_find engine article_text project_article c |}.

Definition start : world := {| now := 0; trace := [] |}.

End Backend.

(* ===================================================================== *)
(** ** JavaScript runtime: regular expressions *)
(* ===================================================================== *)

Module RegExp.

(** The fragment of the pattern language that is modelled: literal
    characters, identity escapes of syntax characters, [.], [^], [$],
    alternation and capturing groups.  Quantifiers, classes and the other
    escapes are outside the fragment. *)
Inductive regex :=
| Empty
| Char (c : ascii)
| Dot
| Bol
| Eol
| Seq (r1 r2 : regex)
| Alt (r1 r2 : regex)
| Group (n : nat) (r : regex).

(** SyntaxCharacter :: one of [^ $ \ . * + ? ( ) [ ] { } |] *)
Definition is_syntax_character (c : ascii) : bool :=
  existsb (Ascii.eqb c) (lit "^$\.*+?()[]{}|").

(** Canonicalize of the [i] flag: the upper-case form when it is a single
    code unit.  Below 256 that moves [a-z] and the accented small letters;
    the sharp s, the micro sign and y-diaeresis stay, since they share their
    upper-case form with no other code unit below 256. *)
Definition canonicalize (c : ascii) : ascii :=
  let n := code c in
  if ((97 <=? n) && (n <=? 122))
     || ((224 <=? n) && (n <=? 254) && negb (n =? 247))
  then ascii_of_nat (n - 32)
  else c.

Definition char_match (ignoreCase : bool) (a b : ascii) : bool :=
  if ignoreCase then Ascii.eqb (canonicalize a) (canonicalize b)
  else Ascii.eqb a b.

Definition is_line_terminator (c : ascii) : bool :=
  (code c =? 10) || (code c =? 13).

(** A match state: the end index and the captures found so far (group
    number, start, end). *)
Record mstate := { endIndex : nat; captures : list (nat * (nat * nat)) }.

Definition step (x : mstate) : mstate :=
  {| endIndex := S (endIndex x); captures := captures x |}.

Definition capture (n from : nat) (y : mstate) : mstate :=
  {| endIndex := endIndex y;
     captures := (n, (from, endIndex y)) :: captures y |}.

(** The matcher of a pattern, in the continuation-passing style of the
    language definition: [k] is what remains to be matched after [r]. *)
Fixpoint matcher (r : regex) (ignoreCase : bool) (input : str) (x : mstate)
    (k : mstate -> option mstate) : option mstate :=
  match r with
  | Empty => k x
  | Char c =>
      match nth_error input (endIndex x) with
      | Some ch => if char_match ignoreCase ch c then k (step x) else None
      | None => None
      end
  | Dot =>
      match nth_error input (endIndex x) with
      | Some ch => if is_line_terminator ch then None else k (step x)
      | None => None
      end
  | Bol => if endIndex x =? 0 then k x else None
  | Eol => if endIndex x =? List.length input then k x else None
  | Seq r1 r2 =>
      matcher r1 ignoreCase input x (fun y => matcher r2 ignoreCase input y k)
  | Alt r1 r2 =>
      match matcher r1 ignoreCase input x k with
      | Some y => Some y
      | None => matcher r2 ignoreCase input x k
      end
  | Group n r =>
      matcher r ignoreCase input x (fun y => k (capture n (endIndex x) y))
  end.

Definition starts_with (c : ascii) (s : str) : bool :=
  match s with
  | c' :: _ => Ascii.eqb c' c
  | [] => false
  end.

(** *** Parsing a pattern

    [parse_alternative] reads terms up to the next [|], [)] or the end;
    [parse_disjunction] reads alternatives separated by [|].  [n] is the
    number of groups opened so far; a group opening with [(?] is not a
    capturing group.  [None]: the pattern is malformed or leaves the
    fragment. *)
Fixpoint parse_alternative (fuel : nat) (s : str) (n : nat) {struct fuel}
  : option (regex * str * nat) :=
  match fuel with
  | 0 => None
  | S fuel' =>
      match s with
      | [] => Some (Empty, [], n)
      | c :: s' =>
          if Ascii.eqb c "|" || Ascii.eqb c ")" then Some (Empty, s, n)
          else if Ascii.eqb c "(" then
            if starts_with "?" s' then None
            else
              match parse_disjunction fuel' s' (S n) with
              | Some (r, ")"%char :: s'', n') =>
                  match parse_alternative fuel' s'' n' with
                  | Some (r', rest, n'') => Some (Seq (Group (S n) r) r', rest, n'')
                  | None => None
                  end
              | _ => None
              end
          else if Ascii.eqb c "\" then
            match s' with
            | d :: s'' =>
                if is_syntax_character d then
                  match parse_alternative fuel' s'' n with
                  | Some (r', rest, n') => Some (Seq (Char d) r', rest, n')
                  | None => None
                  end
                else None
            | [] => None
            end
          else
            let atom :=
              if Ascii.eqb c "." then Some Dot
              else if Ascii.eqb c "^" then Some Bol
              else if Ascii.eqb c "$" then Some Eol
              else if is_syntax_character c then None
              else Some (Char c) in
            match atom with
            | Some a =>
                match parse_alternative fuel' s' n with
                | Some (r', rest, n') => Some (Seq a r', rest, n')
                | None => None
                end
            | None => None
            end
      end
  end
with parse_disjunction (fuel : nat) (s : str) (n : nat) {struct fuel}
  : option (regex * str * nat) :=
  match fuel with
  | 0 => None
  | S fuel' =>
      match parse_alternative fuel' s n with
      | Some (r, "|"%char :: rest, n') =>
          match parse_disjunction fuel' rest n' with
          | Some (r', rest', n'') => Some (Alt r r', rest', n'')
          | None => None
          end
      | other => other
      end
  end.

(** A [RegExp] object freshly constructed ([lastIndex] is 0). *)
Record RegExp := {
  pattern : regex;
  groups : nat;
  global : bool;
  ignoreCase : bool
}.

Definition has_flag (f : ascii) (flags : string) : bool :=
  existsb (Ascii.eqb f) (lit flags).

Definition known_flags (flags : string) : bool :=
  forallb (fun f => Ascii.eqb f "g" || Ascii.eqb f "i") (lit flags).

(** [new RegExp(source, flags)] *)
Definition RegExp_new (source : str) (flags : string) : option RegExp :=
  if known_flags flags then
    match parse_disjunction (2 * List.length source + 2) source 0 with
    | Some (r, [], n) =>
        Some {| pattern := r; groups := n;
                global := has_flag "g" flags; ignoreCase := has_flag "i" flags |}
    | _ => None
    end
  else None.

(** One attempt to match at index [q] (what [exec] does for a sticky
    expression with [lastIndex = q]). *)
Definition match_at (R : RegExp) (input : str) (q : nat) : option mstate :=
  matcher (pattern R) (ignoreCase R) input
          {| endIndex := q; captures := [] |} Some.

(** [R.test(input)] on a fresh expression: the first index from 0 at
    which a match starts. *)
Definition RegExp_test (R : RegExp) (input : str) : bool :=
  existsb (fun q => match match_at R input q with Some _ => true | None => false end)
          (seq 0 (S (List.length input))).

(** [s.substring(p, q)] for [p <= q]. *)
Definition substring (p q : nat) (s : str) : str := firstn (q - p) (skipn p s).

Fixpoint capture_get (n : nat) (caps : list (nat * (nat * nat))) : option (nat * nat) :=
  match caps with
  | [] => None
  | (n', range) :: caps' => if n =? n' then Some range else capture_get n caps'
  end.

(** The captures 1..groups of a match, [None] for a group that took no
    part in it. *)
Definition captured (R : RegExp) (input : str) (y : mstate) : list (option str) :=
  map (fun n => match capture_get n (captures y) with
                | Some (from, to) => Some (substring from to input)
                | None => None
                end)
      (seq 1 (groups R)).

(** The loop of [input.split(R)]: [p] is the end of the last match, [q]
    the index tried next. *)
Fixpoint split_loop (fuel : nat) (R : RegExp) (input : str) (p q : nat)
  : list (option str) :=
  match fuel with
  | 0 => [Some (substring p (List.length input) input)]
  | S fuel' =>
      if List.length input <=? q then [Some (substring p (List.length input) input)]
      else
        match match_at R input q with
        | None => split_loop fuel' R input p (S q)
        | Some y =>
            let e := Nat.min (endIndex y) (List.length input) in
            if e =? p then split_loop fuel' R input p (S q)
            else Some (substring p q input)
                   :: captured R input y ++ split_loop fuel' R input e e
        end
  end.

(** [input.split(R)] without a limit. *)
Definition String_split (input : str) (R : RegExp) : list (option str) :=
  if List.length input =? 0 then
    match match_at R input 0 with
    | Some _ => []
    | None => [Some input]
    end
  else split_loop (2 * List.length input + 2) R input 0 0.

End RegExp.
Import RegExp.

(* ===================================================================== *)
(** ** Frontend: [HighlightedText] *)
(* ===================================================================== *)

Module Highlighter.

(** One rendered [<span>]: its text and whether it carries the class
    [match-highlight]. *)
Record span := { span_text : str; highlighted : bool }.

Definition plain (text : str) : span := {| span_text := text; highlighted := false |}.

(** The class [[.*+?^${}()|[\]\\]] of the escaping [replace]. *)
Definition in_escape_class (c : ascii) : bool :=
  existsb (Ascii.eqb c) (lit ".*+?^${}()|[]\").

(** [term.replace(/[.*+?^${}()|[\]\\]/g, '\\$&')] *)
Definition escape (term : str) : str :=
  flat_map (fun c => if in_escape_class c then ["\"%char; c] else [c]) term.

(** [(a, b) => b.length - a.length] *)
Definition by_length (a b : str) : comparison :=
  sign_Z (Z.of_nat (List.length b) - Z.of_nat (List.length a)).

(** [query.trim().split(/\s+/).filter(t => t.length > 0).sort(..)] *)
Definition query_terms (query : str) : list str :=
  Array_sort by_length
    (filter (fun t => 0 <? List.length t) (split_whitespace (trim query))).

(** [`(${safeTerms.join('|')})`] *)
Definition combined_source (safeTerms : list str) : str :=
  (lit "(" ++ join (lit "|") safeTerms ++ lit ")")%list.

(** [`^${term}$`] *)
Definition anchored_source (term : str) : str :=
  (lit "^" ++ term ++ lit "$")%list.

(** [safeTerms.some(term => new RegExp(`^${term}$`, 'i').test(part))];
    [None] when a constructor call throws. *)
Fixpoint isMatch (safeTerms : list str) (part : str) : option bool :=
  match safeTerms with
  | [] => Some false
  | term :: rest =>
      match RegExp_new (anchored_source term) "i" with
      | None => None
      | Some R => if RegExp_test R part then Some true else isMatch rest part
      end
  end.

(** The text a part shows, and the text [test] sees: [undefined] shows
    nothing and is tested as the string ["undefined"]. *)
Definition shown (part : option str) : str :=
  match part with Some s => s | None => [] end.
Definition tested (part : option str) : str :=
  match part with Some s => s | None => lit "undefined" end.

Fixpoint render (safeTerms : list str) (parts : list (option str))
  : option (list span) :=
  match parts with
  | [] => Some []
  | part :: parts' =>
      match isMatch safeTerms (tested part), render safeTerms parts' with
      | Some b, Some spans =>
          Some ({| span_text := shown part; highlighted := b |} :: spans)
      | _, _ => None
      end
  end.

(** The component: the spans inside the outer [<span>], or [None] when
    rendering throws. *)
Definition HighlightedText (text query : str) : option (list span) :=
  if List.length text =? 0 then Some []
  else if List.length query =? 0 then Some [plain text]
  else
    let terms := query_terms query in
    if List.length terms =? 0 then Some [plain text]
    else
      let safeTerms := map escape terms in
      match RegExp_new (combined_source safeTerms) "gi" with
      | None => None
      | Some regex => render safeTerms (String_split text regex)
      end.

End Highlighter.
Import Highlighter.

(* ===================================================================== *)
(** ** Frontend: the search session of [App] *)
(* ===================================================================== *)

Module Session.

Import Backend.

(** An entry of the [results] state.  [display_score] holds the number
    that the component formats with two decimals. *)
Record item := {
  item_id : nat;
  item_type : string;
  item_title : str;
  item_description : str;
  display_score : Q
}.

(** [a || b] on strings that may be [undefined]: the empty string is
    falsy too. *)
Definition or_else (a : option str) (b : str) : str :=
  match a with
  | Some (c :: s) => c :: s
  | _ => b
  end.

(** [item => ({ id, type, title: item.name || item.title || 'Untitled',
    description: item.description || item.content || '', ... })] *)
Definition normalize (r : result) : item :=
  match r with
  | product_result id name description _ _ score =>
      {| item_id := id; item_type := "product";
         item_title := or_else name (or_else None (lit "Untitled"));
         item_description := or_else description (or_else None []);
         display_score := score |}
  | article_result id title content _ _ score =>
      {| item_id := id; item_type := "article";
         item_title := or_else None (or_else title (lit "Untitled"));
         item_description := or_else None (or_else content []);
         display_score := score |}
  end.

(** How a [fetch] ends: the promise rejects or the status is not ok (both
    reach the [catch]), or a body arrives whose [results] may be absent. *)
Inductive fetched :=
| Failed
| Body (results : option (list result)).

(** The debounce delay of the [setTimeout] call. *)
Definition delay : nat := 150.

(** A scheduled timeout: its id, the time it is due, and the [query] its
    callback closed over. *)
Record timer := { timer_id : nat; due : nat; captured : str }.

(** The component state, the browser's timers and the requests issued.
    [cleanup] is the timer that the cleanup of the last effect run will
    clear, if that run returned a cleanup.  [requests] lists every call to
    [fetch] with its time and query; [in_flight] holds the positions in
    [requests] that still await their response. *)
Record state := {
  query : str;
  results : list item;
  isLoading : bool;
  hasSearched : bool;
  error : bool;
  clock : nat;
  next_timer : nat;
  timers : list timer;
  cleanup : option nat;
  requests : list (nat * str);
  in_flight : list nat
}.

(** The state after mounting: the effect has run once on the empty query. *)
Definition initial : state :=
  {| query := []; results := []; isLoading := false; hasSearched := false;
     error := false; clock := 0; next_timer := 0; timers := [];
     cleanup := None; requests := []; in_flight := [] |}.

(** [clearTimeout(id)] *)
Definition clearTimeout (id : nat) (l : list timer) : list timer :=
  filter (fun t => negb (timer_id t =? id)) l.

(** The cleanup returned by the previous run of the effect. *)
Definition run_cleanup (s : state) : state :=
  match cleanup s with
  | Some id =>
      {| query := query s; results := results s; isLoading := isLoading s;
         hasSearched := hasSearched s; error := error s; clock := clock s;
         next_timer := next_timer s; timers := clearTimeout id (timers s);
         cleanup := None; requests := requests s; in_flight := in_flight s |}
  | None => s
  end.

(** The body of the debounced search effect, run for the current
    [query]. *)
Definition effect (s : state) : state :=
  if List.length (trim (query s)) =? 0 then
    {| query := query s; results := []; isLoading := false;
       hasSearched := false; error := error s; clock := clock s;
       next_timer := next_timer s; timers := timers s;
       cleanup := None; requests := requests s; in_flight := in_flight s |}
  else
    {| query := query s; results := results s; isLoading := isLoading s;
       hasSearched := hasSearched s; error := error s; clock := clock s;
       next_timer := S (next_timer s);
       timers := timers s ++ [{| timer_id := next_timer s;
                                 due := clock s + delay;
                                 captured := query s |}];
       cleanup := Some (next_timer s);
       requests := requests s; in_flight := in_flight s |}.

(** [onChange]: [setQuery(value)].  A value equal to the current one
    leaves the state alone; otherwise the component renders again, the
    old cleanup runs and then the effect. *)
Definition change (value : str) (s : state) : state :=
  if str_eqb value (query s) then s
  else
    let s1 := run_cleanup s in
    effect {| query := value; results := results s1; isLoading := isLoading s1;
              hasSearched := hasSearched s1; error := error s1; clock := clock s1;
              next_timer := next_timer s1; timers := timers s1;
              cleanup := cleanup s1; requests := requests s1;
              in_flight := in_flight s1 |}.

(** The start of [performSearch] for the closed-over query, up to the
    [await fetch(..)]. *)
Definition performSearch (at_time : nat) (q : str) (s : state) : state :=
  {| query := query s; results := results s; isLoading := true;
     hasSearched := true; error := false; clock := clock s;
     next_timer := next_timer s; timers := timers s; cleanup := cleanup s;
     requests := requests s ++ [(at_time, q)];
     in_flight := in_flight s ++ [List.length (requests s)] |}.

(** The timers due by [t] fire, oldest first. *)
Fixpoint fire (due_now : list timer) (s : state) : state :=
  match due_now with
  | [] => s
  | t :: rest => fire rest (performSearch (due t) (captured t) s)
  end.

(** [d] milliseconds pass. *)
Definition elapse (d : nat) (s : state) : state :=
  let t := clock s + d in
  let due_now := filter (fun x => due x <=? t) (timers s) in
  let later := filter (fun x => negb (due x <=? t)) (timers s) in
  fire due_now
       {| query := query s; results := results s; isLoading := isLoading s;
          hasSearched := hasSearched s; error := error s; clock := t;
          next_timer := next_timer s; timers := later; cleanup := cleanup s;
          requests := requests s; in_flight := in_flight s |}.

(** The rest of [performSearch] once the response of request [rid] is
    in: [setResults(normalized)], or the [catch] branch; then the
    [finally] branch. *)
Definition settle (rid : nat) (r : fetched) (s : state) : state :=
  if existsb (Nat.eqb rid) (in_flight s) then
    let remaining := filter (fun i => negb (i =? rid)) (in_flight s) in
    match r with
    | Body data =>
        {| query := query s;
           results := map normalize (match data with Some l => l | None => [] end);
           isLoading := false; hasSearched := hasSearched s; error := error s;
           clock := clock s; next_timer := next_timer s; timers := timers s;
           cleanup := cleanup s; requests := requests s; in_flight := remaining |}
    | Failed =>
        {| query := query s; results := []; isLoading := false;
           hasSearched := hasSearched s; error := true;
           clock := clock s; next_timer := next_timer s; timers := timers s;
           cleanup := cleanup s; requests := requests s; in_flight := remaining |}
    end
  else s.

Inductive action :=
| Input (value : str)
| Elapse (d : nat)
| Respond (rid : nat) (r : fetched).

Definition step (s : state) (a : action) : state :=
  match a with
  | Input value => change value s
  | Elapse d => elapse d s
  | Respond rid r => settle rid r s
  end.

Definition run (s : state) (script : list action) : state :=
  fold_left step script s.

(** The result cards the component renders: none before a search, none
    on error, otherwise one per entry of [results]. *)
Definition cards (s : state) : list item :=
  if negb (hasSearched s) then []
  else if error s then []
  else results s.

(** A burst of typing: each value followed by the pause before the next
    change. *)
Definition typing (changes : list (str * nat)) : list action :=
  flat_map (fun c => [Input (fst c); Elapse (snd c)]) changes.

End Session.

(** The pattern matcher used when a collection is run inside this
    development: the matcher of [RegExp], searching for a match anywhere in
    the field value.  A pattern outside the modelled fragment is treated
    as rejected. *)
Definition pattern_engine : Backend.regex_engine :=
  fun pattern options =>
    match RegExp_new pattern options with
    | Some R => Some (RegExp_test R)
    | None => None
    end.


(* ===================================================================== *)
(** ** Vocabulary of the properties *)
(* ===================================================================== *)

(** [a] may stand before [b]. *)
Definition in_order {A} (cmp : A -> A -> comparison) (a b : A) : Prop :=
  comes_after cmp a b = false.

Section BackendVocabulary.
Import Backend.

(** A query string is valid when something is left after trimming. *)
Definition valid_query (s : str) : Prop := trim s <> [].

(** [req.query.q] is missing, empty, or white space only. *)
Definition blank_query (q : query_param) : Prop :=
  q = QUndefined \/
  exists s, q = QString s /\ forallb is_white_space s = true.

(** The results whose score equals [s]. *)
Definition scored (s : Q) (l : list result) : list result :=
  filter (fun r => Qeq_bool (result_score r) s) l.

(** The body of the interface description: [success], [count], [query]
    and [results] are present, [message] may be. *)
Definition documented_body (b : list (string * json)) : Prop :=
  (exists v, body_get "success" b = Some (JBool v)) /\
  (exists n, body_get "count" b = Some (JNum n)) /\
  (exists q, body_get "query" b = Some (JStr q)) /\
  (exists rs, body_get "results" b = Some (JResults rs)) /\
  (body_get "message" b = None \/ exists m, body_get "message" b = Some (JStr m)).

(** The products and the articles a pattern test selects, as the two
    queries of the controller return them. *)
Definition matching_products (test : str -> bool) (c : Collection ProductDoc)
  : list ProductDoc :=
  map (project_product product_projection)
      (filter (satisfies product_text
                 [("name", test); ("description", test); ("category", test)]%string)
              (documents c)).

Definition matching_articles (test : str -> bool) (c : Collection ArticleDoc)
  : list ArticleDoc :=
  map (project_article article_projection)
      (filter (satisfies article_text
                 [("title", test); ("content", test); ("author", test)]%string)
              (documents c)).

(** The world after a query to a reachable collection: one dispatch, one
    completion [latency] later. *)
Definition after_query {Doc} (c : Collection Doc) (w : world) : world :=
  {| now := now w + latency c;
     trace := (trace w ++ [Dispatched (coll_name c) (now w)])
                ++ [Completed (coll_name c) (now w + latency c)] |}.

End BackendVocabulary.

Section SessionVocabulary.
Import Session.

(** Each value of the list differs from the one before it, starting
    from [prev]: every entry is a change of the input. *)
Fixpoint changing (prev : str) (values : list str) : Prop :=
  match values with
  | [] => True
  | v :: rest => v <> prev /\ changing v rest
  end.

(** No search has been issued, and at most the timer of the current
    query is scheduled, not yet due. *)
Definition quiet (s : state) : Prop :=
  requests s = [] /\
  ((timers s = [] /\ cleanup s = None) \/
   exists id t,
     timers s = [{| timer_id := id; due := t; captured := query s |}] /\
     cleanup s = Some id /\ clock s < t).

(** The timer of the current query was just scheduled, alone. *)
Definition armed (s : state) : Prop :=
  requests s = [] /\
  exists id,
    timers s = [{| timer_id := id; due := clock s + delay; captured := query s |}] /\
    cleanup s = Some id.

End SessionVocabulary.

(** The pattern of a literal text followed by [r]. *)
Definition literal_then (t : str) (r : regex) : regex :=
  fold_right (fun c r' => Seq (Char c) r') r t.

(** The alternation of the patterns of a non-empty list. *)
Fixpoint alternation (rs : list regex) : regex :=
  match rs with
  | [] => Empty
  | [r] => r
  | r :: rs' => Alt r (alternation rs')
  end.

(** The literal pattern of a term. *)
Definition literal (t : str) : regex := literal_then t Empty.

(** The expression the highlighter builds from its terms. *)
Definition highlight_regex (ts : list str) : RegExp :=
  {| pattern := Seq (Group 1 (alternation (map literal ts))) Empty;
     groups := 1; global := true; ignoreCase := true |}.

(** The expression by which a part is tested against one term. *)
Definition anchored_regex (t : str) : RegExp :=
  {| pattern := Seq Bol (literal_then t (Seq Eol Empty));
     groups := 0; global := false; ignoreCase := true |}.

(** [t] matches a prefix of [s], code unit by code unit. *)
Fixpoint matches_prefix (ignoreCase : bool) (t s : str) : bool :=
  match t, s with
  | [], _ => true
  | c :: t', ch :: s' => char_match ignoreCase ch c && matches_prefix ignoreCase t' s'
  | _ :: _, [] => false
  end.

(** The first term of [ts] that matches [input] at index [q], without
    regard to case. *)
Definition first_match (ts : list str) (input : str) (q : nat) : option str :=
  find (fun t => matches_prefix true t (skipn q input)) ts.

Definition advance (x : mstate) (n : nat) : mstate :=
  {| endIndex := endIndex x + n; captures := captures x |}.

(** [part] equals the term [t], without regard to case. *)
Definition same_text (t part : str) : bool :=
  matches_prefix true t part && (List.length t =? List.length part).

(** [needle] occurs in [hay] as literal text, without regard to case. *)
Definition occurs_in (needle hay : str) : bool :=
  existsb (fun i => matches_prefix true needle (skipn i hay))
          (seq 0 (S (List.length hay))).

(** The term [t] matches [text] at index [i], without regard to case. *)
Definition matches_here (t text : str) (i : nat) : Prop :=
  matches_prefix true t (skipn i text) = true.

(** The spans from offset [o] on: a highlighted span is one of the terms
    up to case, and no term matching at its offset is longer than it; no
    term matches at any index inside a span that is not highlighted. *)
Fixpoint segmented (ts : list str) (text : str) (o : nat) (spans : list span) : Prop :=
  match spans with
  | [] => True
  | sp :: rest =>
      (if highlighted sp then
         (exists t, In t ts /\ same_text t (span_text sp) = true) /\
         (forall u, In u ts -> matches_here u text o ->
                    List.length u <= List.length (span_text sp))
       else
         forall i u, o <= i < o + List.length (span_text sp) -> In u ts ->
                     ~ matches_here u text i)
      /\ segmented ts text (o + List.length (span_text sp)) rest
  end.

(** ** Sample data *)

Module Samples.
Import Backend.

Definition laptop_screen : ProductDoc :=
  {| p_id := 1;
     p_name := Some (lit "Laptop Screen Replacement 15.6 inch");
     p_description := Some (lit "High-quality 15.6 inch laptop screen replacement panel.");
     p_category := Some (lit "Electronics");
     p_price := Some (3499 # 1)%Q;
     p_score := None |}.

Definition handbook : ProductDoc :=
  {| p_id := 2;
     p_name := Some (lit "MongoDB Developer Handbook");
     p_description := Some (lit "A comprehensive guide for developers to master MongoDB database.");
     p_category := Some (lit "Books");
     p_price := Some (799 # 1)%Q;
     p_score := None |}.

Definition text_indexes : ArticleDoc :=
  {| a_id := 11;
     a_title := Some (lit "Understanding MongoDB Text Indexes");
     a_content := Some (lit "Text indexes make string content searchable.");
     a_author := Some (lit "Sneha Patel");
     a_tags := Some [lit "mongodb"; lit "indexes"];
     a_score := None |}.

Definition naming : ArticleDoc :=
  {| a_id := 12;
     a_title := Some (lit "Is it node-js or nodejs?");
     a_content := Some (lit "A short note on spelling.");
     a_author := Some (lit "Amit Kumar");
     a_tags := Some [lit "naming"];
     a_score := None |}.

Definition products : Collection ProductDoc :=
  {| coll_name := "products"; documents := [laptop_screen; handbook];
     latency := 80; failure := None |}.

Definition articles : Collection ArticleDoc :=
  {| coll_name := "articles"; documents := [text_indexes; naming];
     latency := 120; failure := None |}.

Definition Product : Model ProductDoc := Product_model pattern_engine products.
Definition Article : Model ArticleDoc := Article_model pattern_engine articles.

(** Models of sources that attach a relevance score to what they
    return. *)
Definition with_score {Doc} (docs : list Doc) : Model Doc :=
  {| find := fun _ _ => ret docs |}.

Definition scored_products : list ProductDoc :=
  [ {| p_id := 1; p_name := Some (lit "Laptop Stand"); p_description := None;
       p_category := None; p_price := None; p_score := Some (9 # 10)%Q |};
    {| p_id := 2; p_name := Some (lit "MongoDB Developer Handbook");
       p_description := None; p_category := None; p_price := None;
       p_score := Some (3 # 2)%Q |} ].

Definition scored_articles : list ArticleDoc :=
  [ {| a_id := 11; a_title := Some (lit "Understanding MongoDB Text Indexes");
       a_content := None; a_author := None; a_tags := None;
       a_score := Some (3 # 2)%Q |};
    {| a_id := 12; a_title := Some (lit "MongoDB in production");
       a_content := None; a_author := None; a_tags := None;
       a_score := None |} ].

Definition get (q : string) : request := {| query_q := QString (lit q) |}.

End Samples.

(* ===================================================================== *)
(** ** The rest of the component, and further vocabulary *)
(* ===================================================================== *)

Section ClientCode.
Import Backend Session.

(** [handleClear]: [setQuery('')]; the focus of the input is not part of
    the state. *)
Definition handleClear (s : state) : state := change [] s.

(** What [performSearch] makes of the response of the search endpoint:
    a status outside 200..299 throws ([!response.ok]); otherwise the
    body is read and [data.results] taken, if it is there. *)
Definition receive (resp : response) : fetched :=
  if (200 <=? status resp) && (status resp <=? 299) then
    Body (match body_get "results" (body resp) with
          | Some (JResults l) => Some l
          | _ => None
          end)
  else Failed.

(** The state of the timers and of the request log that every run of the
    component keeps: at most the timer of the current query is scheduled,
    it is due within the delay, and only queries that are not blank have
    been searched. *)
Definition consistent (s : state) : Prop :=
  (timers s = [] \/
   exists t, timers s = [t] /\ cleanup s = Some (timer_id t) /\
             captured t = query s /\ valid_query (query s) /\
             clock s < due t /\ due t <= clock s + delay) /\
  Forall (fun r => valid_query (snd r)) (requests s).

(** One of the fields holds the text [s], without regard to case. *)
Definition mentions (s : str) (fields : list (option str)) : bool :=
  existsb (fun f => match f with Some v => occurs_in s v | None => false end) fields.

End ClientCode.

(** A search term none of whose characters is pattern syntax. *)
Definition plain_term (s : str) : Prop :=
  Forall (fun c => is_syntax_character c = false) s.

(** A code unit that is not white space. *)
Definition visible (c : ascii) : bool := negb (is_white_space c).

(** A term as the tokenizer produces them: not empty, no white space. *)
Definition token (t : str) : Prop :=
  t <> [] /\ forallb visible t = true.

(** [s] is empty or begins with white space. *)
Definition blank_start (s : str) : Prop :=
  match s with
  | [] => True
  | c :: _ => is_white_space c = true
  end.

(** [tokens_of s ws]: [ws] lists, in the order of the string, the maximal
    runs of code units of [s] that are not white space.  Each run is
    preceded by a stretch of white space (empty only at the start of the
    string) and followed by white space or by the end. *)
Inductive tokens_of : str -> list str -> Prop :=
| tokens_none (gap : str) :
    forallb is_white_space gap = true -> tokens_of gap []
| tokens_next (gap w rest : str) (ws : list str) :
    forallb is_white_space gap = true ->
    token w ->
    blank_start rest ->
    tokens_of rest ws ->
    tokens_of (gap ++ w ++ rest) (w :: ws).

(** The expression the server compiles from a plain term. *)
Definition plain_regex (t : str) : RegExp :=
  {| pattern := literal t; groups := 0; global := false; ignoreCase := true |}.

(** Some term of [ts] occurs in [text], without regard to case. *)
Definition some_term_occurs (ts : list str) (text : str) : Prop :=
  exists t i, In t ts /\ i < List.length text /\ matches_here t text i.

(** Further sample data: a products collection that cannot be reached,
    and the session while the search for a first value is in flight. *)
Module MoreSamples.
Import Backend Session.

Definition unreachable : Collection ProductDoc :=
  {| coll_name := "products"; documents := [Samples.laptop_screen];
     latency := 30; failure := Some (lit "connect ECONNREFUSED") |}.

Definition searching : list action := [Input (lit "mongodb"); Elapse 150].

End MoreSamples.

(* ===================================================================== *)
(** * Properties *)
(* ===================================================================== *)

(** ** Sorting *)

Section ArraySortFacts.
Variable A : Type.
Variable cmp : A -> A -> comparison.

Lemma sort_insert_perm (x : A) (l : list A) :
  Permutation (x :: l) (sort_insert cmp x l).
Proof.
  induction l as [|y l IH]; simpl.
  - apply Permutation_refl.
  - destruct (comes_after cmp x y).
    + eapply perm_trans; [apply perm_swap|]. now apply perm_skip.
    + apply Permutation_refl.
Qed.

Lemma Array_sort_perm (l : list A) : Permutation l (Array_sort cmp l).
Proof.
  induction l as [|x l IH]; simpl.
  - constructor.
  - eapply perm_trans; [apply perm_skip, IH | apply sort_insert_perm].
Qed.

(** Stability: elements selected by a predicate that the comparator
    never ranks below an unselected one they jump over keep their
    order. *)
Lemma sort_insert_filter (P : A -> bool) (x : A) (l : list A) :
  (forall y, In y l -> comes_after cmp x y = true -> P x = true -> P y = false) ->
  filter P (sort_insert cmp x l) = filter P (x :: l).
Proof.
  induction l as [|y l IH]; intros Hjump; simpl; [reflexivity|].
  destruct (comes_after cmp x y) eqn:Hxy; simpl; [|reflexivity].
  rewrite IH by (intros; apply Hjump; simpl; auto).
  simpl. case_eq (P x); intros Px; [|reflexivity].
  now rewrite (Hjump y (or_introl eq_refl) Hxy Px).
Qed.

Lemma Array_sort_filter (P : A -> bool) (l : list A) :
  (forall x y, comes_after cmp x y = true -> P x = true -> P y = false) ->
  filter P (Array_sort cmp l) = filter P l.
Proof.
  intros Hjump. induction l as [|x l IH]; simpl; [reflexivity|].
  rewrite sort_insert_filter by (intros; eapply Hjump; eauto).
  simpl. now rewrite IH.
Qed.

Hypothesis asym : forall x y, comes_after cmp x y = true -> in_order cmp y x.
Hypothesis trans : forall x y z, in_order cmp x y -> in_order cmp y z -> in_order cmp x z.

Lemma sort_insert_sorted (x : A) (l : list A) :
  StronglySorted (in_order cmp) l -> StronglySorted (in_order cmp) (sort_insert cmp x l).
Proof.
  induction 1 as [|y l Hs IH Hy]; simpl.
  - repeat constructor.
  - destruct (comes_after cmp x y) eqn:Hxy.
    + constructor; [exact IH|].
      eapply Permutation_Forall; [apply sort_insert_perm|].
      constructor; auto.
    + constructor; [constructor; assumption|].
      constructor; [exact Hxy|].
      eapply Forall_impl; [|exact Hy]. intros z Hz. eapply trans; eauto.
Qed.

Lemma Array_sort_sorted (l : list A) : StronglySorted (in_order cmp) (Array_sort cmp l).
Proof.
  induction l; simpl; [constructor | now apply sort_insert_sorted].
Qed.

(** An array in which no element has to move is left as it is. *)
Lemma Array_sort_fixed (l : list A) :
  (forall x y, In x l -> In y l -> comes_after cmp x y = false) ->
  Array_sort cmp l = l.
Proof.
  induction l as [|x l IH]; intros H; simpl; [reflexivity|].
  rewrite IH by (intros; apply H; simpl; auto).
  destruct l as [|y l]; simpl; [reflexivity|].
  now rewrite H by (simpl; auto).
Qed.
End ArraySortFacts.

Lemma StronglySorted_nth {A} (R : A -> A -> Prop) (l : list A) :
  StronglySorted R l ->
  forall i j a b, i < j -> nth_error l i = Some a -> nth_error l j = Some b -> R a b.
Proof.
  induction 1 as [|x l Hs IH Hx]; intros i j a b Hij Hi Hj.
  - destruct i; discriminate.
  - destruct j as [|j]; [lia|]. simpl in Hj.
    destruct i as [|i]; simpl in Hi.
    + injection Hi as ->. rewrite Forall_forall in Hx.
      apply Hx. eapply nth_error_In; eauto.
    + eapply IH; [|eauto|eauto]. lia.
Qed.

(** ** Trimming *)

Lemma trim_start_blank (s : str) :
  trim_start s = [] <-> forallb is_white_space s = true.
Proof.
  induction s as [|c s IH]; simpl; [tauto|].
  destruct (is_white_space c); simpl; [exact IH|].
  split; discriminate.
Qed.

Lemma trim_start_head (s : str) :
  trim_start s = [] \/
  exists c r, trim_start s = c :: r /\ is_white_space c = false.
Proof.
  induction s as [|c s IH]; simpl; [now left|].
  destruct (is_white_space c) eqn:E; [exact IH|].
  right. now exists c, s.
Qed.

Lemma forallb_rev {A} (f : A -> bool) (l : list A) :
  forallb f (rev l) = forallb f l.
Proof.
  induction l as [|a l IH]; simpl; [reflexivity|].
  rewrite forallb_app, IH. simpl. rewrite andb_true_r. apply andb_comm.
Qed.

(** [trim] returns the empty string exactly on strings of white space. *)
Lemma trim_blank (s : str) :
  trim s = [] <-> forallb is_white_space s = true.
Proof.
  unfold trim, trim_end. split.
  - intros H. apply (f_equal (@rev ascii)) in H. rewrite rev_involutive in H.
    simpl in H. apply trim_start_blank in H. rewrite forallb_rev in H.
    destruct (trim_start_head s) as [E | (c & r & E & Hc)].
    + now apply trim_start_blank.
    + rewrite E in H. simpl in H. rewrite Hc in H. discriminate.
  - intros H. apply trim_start_blank in H. now rewrite H.
Qed.

Lemma str_eqb_eq (a b : str) : str_eqb a b = true <-> a = b.
Proof.
  unfold str_eqb. destruct (list_eq_dec ascii_dec a b); split; congruence.
Qed.

Lemma str_eqb_neq (a b : str) : str_eqb a b = false <-> a <> b.
Proof.
  unfold str_eqb. destruct (list_eq_dec ascii_dec a b); split; congruence.
Qed.

(** ** The controller *)

Section Controller.
Import Backend.
Local Open Scope js_scope.

Lemma validation_passes (s : str) :
  valid_query s -> (List.length s =? 0) || str_eqb (trim s) [] = false.
Proof.
  intros Hv. apply orb_false_iff. split.
  - destruct s; [now elim Hv | reflexivity].
  - now apply str_eqb_neq.
Qed.

Lemma validation_fails (s : str) :
  forallb is_white_space s = true ->
  (List.length s =? 0) || str_eqb (trim s) [] = true.
Proof.
  intros H. apply orb_true_iff. right.
  apply str_eqb_eq. now apply trim_blank.
Qed.

Variable Product : Model ProductDoc.
Variable Article : Model ArticleDoc.

(** The run of the handler on a valid query, when both sources
    answer. *)
Lemma globalSearch_answers (s : str) (w w1 w2 : world)
      (products : list ProductDoc) (articles : list ArticleDoc) :
  valid_query s ->
  find Product (product_filter s) product_projection w = (Return products, w1) ->
  find Article (article_filter s) article_projection w1 = (Return articles, w2) ->
  globalSearch Product Article {| query_q := QString s |} w =
    (Return (let results := Array_sort by_score (combine products articles) in
             if List.length results =? 0 then no_results s else found s results),
     w2).
Proof.
  intros Hv HP HA.
  unfold globalSearch, try_catch, bind; simpl.
  rewrite (validation_passes Hv), HP, HA.
  destruct (List.length _ =? 0); reflexivity.
Qed.

Lemma results_of_answer (s : str) (rs : list result) :
  body_get "results"
    (body (if List.length rs =? 0 then no_results s else found s rs))
  = Some (JResults rs).
Proof.
  destruct rs; reflexivity.
Qed.
End Controller.

(** *** Order of the merged results *)

Section Ranking.
Import Backend.

Lemma by_score_after (a b : result) :
  comes_after by_score a b = true <-> (result_score a < result_score b)%Q.
Proof.
  unfold comes_after, by_score, sign_Q.
  rewrite (Qlt_minus_iff (result_score a) (result_score b)).
  destruct (Qcompare_spec (result_score b - result_score a) 0) as [E|E|E].
  - split; [discriminate|]. intros H. unfold Qminus in E.
    rewrite E in H. now apply Qlt_irrefl in H.
  - split; [discriminate|]. intros H. unfold Qminus in E.
    elim (Qlt_irrefl 0). eapply Qlt_trans; eauto.
  - split; [intros _; exact E | reflexivity].
Qed.

Lemma by_score_in_order (a b : result) :
  in_order by_score a b <-> (result_score b <= result_score a)%Q.
Proof.
  unfold in_order. split.
  - intros H. apply Qnot_lt_le. intros Hlt.
    apply by_score_after in Hlt. congruence.
  - intros H. destruct (comes_after by_score a b) eqn:E; [|reflexivity].
    apply by_score_after in E. elim (Qlt_irrefl (result_score a)).
    eapply Qlt_le_trans; eauto.
Qed.

Lemma ranked_sorted (l : list result) :
  StronglySorted (fun a b => result_score b <= result_score a)%Q
                 (Array_sort by_score l).
Proof.
  assert (H : StronglySorted (in_order by_score) (Array_sort by_score l)).
  { apply Array_sort_sorted.
    - intros x y Hxy. apply by_score_in_order.
      apply by_score_after in Hxy. now apply Qlt_le_weak.
    - intros x y z Hxy Hyz. apply by_score_in_order.
      apply by_score_in_order in Hxy. apply by_score_in_order in Hyz.
      eapply Qle_trans; eauto. }
  induction H as [|a l' Hs IH Ha]; constructor; [exact IH|].
  eapply Forall_impl; [|exact Ha]. intros b. apply by_score_in_order.
Qed.

Lemma ranked_stable (s : Q) (l : list result) :
  scored s (Array_sort by_score l) = scored s l.
Proof.
  apply Array_sort_filter. intros x y Hxy Hx.
  apply by_score_after in Hxy. apply Qeq_bool_iff in Hx.
  destruct (Qeq_bool (result_score y) s) eqn:Hy; [|reflexivity].
  apply Qeq_bool_iff in Hy. rewrite Hx, Hy in Hxy.
  now apply Qlt_irrefl in Hxy.
Qed.
End Ranking.

Section BackendClaims.
Import Backend.

(** C1.  On a valid query answered by both sources, the [results] array
    of the response is ranked: a result with a strictly higher score
    stands at a smaller index than one with a lower score; the results
    are exactly the merged ones; and for every score, the results having
    that score appear in merge order, the products (in the order their
    source returned them) before the articles (in theirs). *)
Theorem globalSearch_ranked :
  forall (Product : Model ProductDoc) (Article : Model ArticleDoc)
         (s : str) (w w1 w2 : world)
         (products : list ProductDoc) (articles : list ArticleDoc),
    valid_query s ->
    find Product (product_filter s) product_projection w = (Return products, w1) ->
    find Article (article_filter s) article_projection w1 = (Return articles, w2) ->
    exists resp rs,
      globalSearch Product Article {| query_q := QString s |} w = (Return resp, w2) /\
      status resp = 200 /\
      body_get "results" (body resp) = Some (JResults rs) /\
      Permutation (combine products articles) rs /\
      (forall i j a b,
          nth_error rs i = Some a -> nth_error rs j = Some b ->
          (result_score b < result_score a)%Q -> i < j) /\
      (forall score,
          scored score rs =
          scored score (map of_product products) ++ scored score (map of_article articles)).
Proof.
  intros Product Article s w w1 w2 products articles Hv HP HA.
  set (rs := Array_sort by_score (combine products articles)).
  exists (if List.length rs =? 0 then no_results s else found s rs), rs.
  split; [eapply globalSearch_answers; eauto|].
  split; [destruct (List.length rs =? 0); reflexivity|].
  split; [apply results_of_answer|].
  split; [apply Array_sort_perm|].
  split.
  - intros i j a b Hi Hj Hlt.
    destruct (Nat.lt_trichotomy i j) as [H|[H|H]]; [exact H| |].
    + subst j. rewrite Hi in Hj. injection Hj as ->.
      now apply Qlt_irrefl in Hlt.
    + pose proof (StronglySorted_nth (ranked_sorted (combine products articles))
                    H Hj Hi) as Hle.
      simpl in Hle. elim (Qlt_irrefl (result_score b)).
      eapply Qlt_le_trans; eauto.
  - intros score. unfold rs. rewrite ranked_stable.
    unfold scored, combine. apply filter_app.
Qed.

(** C2.  A request whose [q] is missing, empty or white space only is
    answered with status 400 and the body [{success: false, message}];
    the world is left as it was, so no query has been issued to any
    source, whatever the models are. *)
Theorem blank_query_rejected :
  forall (Product : Model ProductDoc) (Article : Model ArticleDoc)
         (req : request) (w : world),
    blank_query (query_q req) ->
    exists resp,
      globalSearch Product Article req w = (Return resp, w) /\
      status resp = 400 /\
      body resp = [("success", JBool false);
                   ("message", JStr required_message)]%string.
Proof.
  intros Product Article [q] w [Hq | (s & Hq & Hs)]; simpl in Hq; subst q;
    exists bad_request; (split; [|split; reflexivity]).
  - reflexivity.
  - unfold globalSearch, try_catch; simpl.
    now rewrite (validation_fails _ Hs).
Qed.

(** C9, as amended.  On a valid query for which both sources return no
    record, the handler answers with status 200 and the body
    [{success: true, count: 0, message, results: []}]: the message quotes
    the search term and the body has no [query] key. *)
Theorem zero_results_is_success :
  forall (Product : Model ProductDoc) (Article : Model ArticleDoc)
         (s : str) (w w1 w2 : world),
    valid_query s ->
    find Product (product_filter s) product_projection w = (Return [], w1) ->
    find Article (article_filter s) article_projection w1 = (Return [], w2) ->
    exists resp,
      globalSearch Product Article {| query_q := QString s |} w = (Return resp, w2) /\
      status resp = 200 /\
      body resp = [("success", JBool true);
                   ("count", JNum 0);
                   ("message", JStr (lit "No results found for " ++ [double_quote]
                                       ++ s ++ [double_quote])%list);
                   ("results", JResults [])]%string /\
      body_get "query" (body resp) = None.
Proof.
  intros Product Article s w w1 w2 Hv HP HA.
  exists (no_results s).
  split; [exact (@globalSearch_answers Product Article s w w1 w2 [] [] Hv HP HA)|].
  repeat split.
Qed.

End BackendClaims.


Section CollectionClaims.
Import Backend.

Variable engine : regex_engine.

Lemma compile_product_filter (s : str) (test : str -> bool) :
  engine s "i"%string = Some test ->
  compile_filter engine (product_filter s)
  = Some [("name", test); ("description", test); ("category", test)]%string.
Proof.
  intros H. simpl. now rewrite H.
Qed.

Lemma compile_article_filter (s : str) (test : str -> bool) :
  engine s "i"%string = Some test ->
  compile_filter engine (article_filter s)
  = Some [("title", test); ("content", test); ("author", test)]%string.
Proof.
  intros H. simpl. now rewrite H.
Qed.

Lemma find_products (c : Collection ProductDoc) (s : str) (test : str -> bool) (w : world) :
  engine s "i"%string = Some test -> failure c = None ->
  find (Product_model engine c) (product_filter s) product_projection w
  = (Return (matching_products test c), after_query c w).
Proof.
  intros He Hf. simpl. unfold collection_find, bind, dispatch, complete.
  rewrite Hf. fold (compile_filter engine (product_filter s)).
  now rewrite (compile_product_filter He).
Qed.

Lemma find_articles (c : Collection ArticleDoc) (s : str) (test : str -> bool) (w : world) :
  engine s "i"%string = Some test -> failure c = None ->
  find (Article_model engine c) (article_filter s) article_projection w
  = (Return (matching_articles test c), after_query c w).
Proof.
  intros He Hf. simpl. unfold collection_find, bind, dispatch, complete.
  rewrite Hf. fold (compile_filter engine (article_filter s)).
  now rewrite (compile_article_filter He).
Qed.

Lemma product_score_zero (test : str -> bool) (c : Collection ProductDoc) :
  Forall (fun r => result_score r = 0%Q) (map of_product (matching_products test c)).
Proof.
  unfold matching_products. rewrite !Forall_map.
  apply Forall_forall. intros d _. reflexivity.
Qed.

Lemma article_score_zero (test : str -> bool) (c : Collection ArticleDoc) :
  Forall (fun r => result_score r = 0%Q) (map of_article (matching_articles test c)).
Proof.
  unfold matching_articles. rewrite !Forall_map.
  apply Forall_forall. intros d _. reflexivity.
Qed.

Lemma all_zero_unmoved (l : list result) :
  Forall (fun r => result_score r = 0%Q) l -> Array_sort by_score l = l.
Proof.
  intros H. apply Array_sort_fixed. intros x y Hx Hy.
  rewrite Forall_forall in H.
  unfold comes_after, by_score. now rewrite (H x Hx), (H y Hy).
Qed.

(** C10.  With the regex queries of the controller, on a valid query
    that the server accepts and with both collections reachable, every
    merged result has score 0 (the projections leave the score path out
    and the default applies), and the [results] of the response are the
    matching products in collection order followed by the matching
    articles in collection order. *)
Theorem regex_results_in_source_order :
  forall (pc : Collection ProductDoc) (ac : Collection ArticleDoc)
         (s : str) (test : str -> bool) (w : world),
    valid_query s ->
    engine s "i"%string = Some test ->
    failure pc = None ->
    failure ac = None ->
    included product_projection "score" = false /\
    included article_projection "score" = false /\
    Forall (fun r => result_score r = 0%Q)
           (combine (matching_products test pc) (matching_articles test ac)) /\
    exists resp,
      globalSearch (Product_model engine pc) (Article_model engine ac)
                   {| query_q := QString s |} w
      = (Return resp, after_query ac (after_query pc w)) /\
      status resp = 200 /\
      body_get "results" (body resp)
      = Some (JResults (map of_product (matching_products test pc)
                          ++ map of_article (matching_articles test ac))).
Proof.
  intros pc ac s test w Hv He Hp Ha.
  assert (Hz : Forall (fun r => result_score r = 0%Q)
                 (combine (matching_products test pc) (matching_articles test ac))).
  { apply Forall_app. split; [apply product_score_zero | apply article_score_zero]. }
  split; [reflexivity|]. split; [reflexivity|]. split; [exact Hz|].
  pose proof (@globalSearch_answers (Product_model engine pc) (Article_model engine ac)
                s w _ _ _ _ Hv (@find_products pc s test w He Hp)
                (@find_articles ac s test (after_query pc w) He Ha)) as Hrun.
  cbv zeta in Hrun. rewrite (all_zero_unmoved Hz) in Hrun.
  eexists. split; [exact Hrun|].
  split; [destruct (List.length _ =? 0); reflexivity|].
  apply results_of_answer.
Qed.

End CollectionClaims.

Section BackendRuns.
Import Backend.

Lemma globalSearch_ranked_witness :
  exists resp rs,
    globalSearch (Samples.with_score Samples.scored_products)
                 (Samples.with_score Samples.scored_articles)
                 (Samples.get "mongodb") start = (Return resp, start) /\
    status resp = 200 /\
    body_get "results" (body resp) = Some (JResults rs) /\
    Permutation (combine Samples.scored_products Samples.scored_articles) rs /\
    (forall i j a b,
        nth_error rs i = Some a -> nth_error rs j = Some b ->
        (result_score b < result_score a)%Q -> i < j) /\
    (forall score,
        scored score rs =
        scored score (map of_product Samples.scored_products)
          ++ scored score (map of_article Samples.scored_articles)).
Proof.
  apply (@globalSearch_ranked (Samples.with_score Samples.scored_products)
           (Samples.with_score Samples.scored_articles)
           (lit "mongodb") start start start
           Samples.scored_products Samples.scored_articles).
  - vm_compute. discriminate.
  - reflexivity.
  - reflexivity.
Defined.

Lemma blank_query_rejected_witness :
  exists resp,
    globalSearch Samples.Product Samples.Article (Samples.get "   ") start
    = (Return resp, start) /\
    status resp = 400 /\
    body resp = [("success", JBool false);
                 ("message", JStr required_message)]%string.
Proof.
  apply (@blank_query_rejected Samples.Product Samples.Article (Samples.get "   ") start).
  right. exists (lit "   "). split; reflexivity.
Defined.

Lemma zero_results_is_success_witness :
  exists resp,
    globalSearch Samples.Product Samples.Article (Samples.get "kubernetes") start
    = (Return resp, after_query Samples.articles (after_query Samples.products start)) /\
    status resp = 200 /\
    body resp = [("success", JBool true);
                 ("count", JNum 0);
                 ("message", JStr (lit "No results found for " ++ [double_quote]
                                     ++ lit "kubernetes" ++ [double_quote])%list);
                 ("results", JResults [])]%string /\
    body_get "query" (body resp) = None.
Proof.
  apply (@zero_results_is_success Samples.Product Samples.Article (lit "kubernetes")
           start (after_query Samples.products start)
           (after_query Samples.articles (after_query Samples.products start))).
  - vm_compute. discriminate.
  - vm_compute. reflexivity.
  - vm_compute. reflexivity.
Defined.

(** C9 as stated fails: the query [kubernetes] is valid and matches
    nothing in either collection; the answer has status 200, but its body
    has no [query] key, so it is not of the documented shape. *)
Lemma zero_results_body_lacks_query :
  exists resp w',
    globalSearch Samples.Product Samples.Article (Samples.get "kubernetes") start
    = (Return resp, w') /\
    status resp = 200 /\
    body_get "results" (body resp) = Some (JResults []) /\
    ~ documented_body (body resp).
Proof.
  eexists. eexists. split; [vm_compute; reflexivity|].
  split; [reflexivity|]. split; [reflexivity|].
  intros (_ & _ & (q & Hq) & _). discriminate Hq.
Qed.

Lemma regex_results_in_source_order_witness :
  included product_projection "score" = false /\
  included article_projection "score" = false /\
  Forall (fun r => result_score r = 0%Q)
         (combine (matching_products (RegExp_test
                     {| pattern := Seq (Char "m") (Seq (Char "o") (Seq (Char "n") Empty));
                        groups := 0; global := false; ignoreCase := true |})
                     Samples.products)
                  (matching_articles (RegExp_test
                     {| pattern := Seq (Char "m") (Seq (Char "o") (Seq (Char "n") Empty));
                        groups := 0; global := false; ignoreCase := true |})
                     Samples.articles)) /\
  exists resp,
    globalSearch Samples.Product Samples.Article (Samples.get "mon") start
    = (Return resp, after_query Samples.articles (after_query Samples.products start)) /\
    status resp = 200 /\
    body_get "results" (body resp)
    = Some (JResults
              (map of_product (matching_products (RegExp_test
                     {| pattern := Seq (Char "m") (Seq (Char "o") (Seq (Char "n") Empty));
                        groups := 0; global := false; ignoreCase := true |})
                     Samples.products)
               ++ map of_article (matching_articles (RegExp_test
                     {| pattern := Seq (Char "m") (Seq (Char "o") (Seq (Char "n") Empty));
                        groups := 0; global := false; ignoreCase := true |})
                     Samples.articles))).
Proof.
  apply (@regex_results_in_source_order pattern_engine Samples.products Samples.articles
           (lit "mon") _ start).
  - vm_compute. discriminate.
  - reflexivity.
  - reflexivity.
  - reflexivity.
Defined.

(** C3 fails on the code.  The handler awaits the Product query before it
    issues the Article query: with the products answering after 80 ms and
    the articles after 120 ms, the Article query is dispatched at 80, when
    the Product query completes, and the handler takes 200 ms, the sum of
    both and more than the slower of the two. *)
Theorem sources_queried_in_sequence :
  let w' := snd (globalSearch Samples.Product Samples.Article
                              (Samples.get "mongodb") start) in
  trace w' = [Dispatched "products" 0; Completed "products" 80;
              Dispatched "articles" 80; Completed "articles" 200] /\
  now w' = latency Samples.products + latency Samples.articles /\
  Nat.max (latency Samples.products) (latency Samples.articles) < now w'.
Proof.
  vm_compute. repeat split; lia.
Qed.

(** C5 fails on the code, in the source query executor.  The search
    term [node.js] reaches the collections as a pattern, unescaped: its
    dot matches the hyphen of [node-js], so an article that nowhere
    contains the text [node.js] is returned.  The highlighter, which does
    escape its terms, finds nothing to highlight in that title. *)
Theorem executor_reads_term_as_pattern :
  (exists resp w',
      globalSearch Samples.Product Samples.Article (Samples.get "node.js") start
      = (Return resp, w') /\
      body_get "results" (body resp) = Some (JResults [of_article
          (project_article article_projection Samples.naming)])) /\
  a_title Samples.naming = Some (lit "Is it node-js or nodejs?") /\
  Forall (fun field => match article_text field Samples.naming with
                       | Some v => occurs_in (lit "node.js") v = false
                       | None => True
                       end)
         ["title"; "content"; "author"]%string /\
  HighlightedText (lit "Is it node-js or nodejs?") (lit "node.js")
  = Some [plain (lit "Is it node-js or nodejs?")].
Proof.
  split; [|split; [|split]].
  - eexists. eexists. split; vm_compute; reflexivity.
  - reflexivity.
  - repeat constructor.
  - vm_compute. reflexivity.
Qed.

End BackendRuns.

(** ** The search session *)

Section SessionClaims.
Import Session.

Lemma valid_length (v : str) : valid_query v -> (List.length (trim v) =? 0) = false.
Proof.
  unfold valid_query. destruct (trim v); [congruence | reflexivity].
Qed.

Lemma change_arms (s : state) (v : str) :
  quiet s -> v <> query s -> valid_query v ->
  armed (change v s) /\ query (change v s) = v /\ clock (change v s) = clock s.
Proof.
  intros [Hr Ht] Hne Hv. unfold change.
  apply str_eqb_neq in Hne. rewrite Hne.
  unfold effect, run_cleanup, armed.
  destruct Ht as [[Ht Hc] | (id & t & Ht & Hc & _)]; rewrite Hc; simpl;
    rewrite (valid_length Hv); simpl; rewrite Ht; simpl.
  - repeat split; eauto.
  - rewrite Nat.eqb_refl. simpl. repeat split; eauto.
Qed.

Lemma elapse_short (s : state) (d : nat) :
  armed s -> d < delay ->
  quiet (elapse d s) /\ query (elapse d s) = query s.
Proof.
  intros (Hr & id & Ht & Hc) Hd. unfold elapse. rewrite Ht. simpl.
  assert (E : (clock s + delay <=? clock s + d) = false) by (apply Nat.leb_gt; lia).
  rewrite E. simpl. split; [|reflexivity].
  split; [exact Hr|]. right. exists id, (clock s + delay). simpl.
  repeat split; auto. lia.
Qed.

Lemma elapse_long (s : state) (d : nat) :
  armed s -> delay <= d ->
  requests (elapse d s) = [(clock s + delay, query s)] /\ timers (elapse d s) = [].
Proof.
  intros (Hr & id & Ht & Hc) Hd. unfold elapse. rewrite Ht. simpl.
  assert (E : (clock s + delay <=? clock s + d) = true) by (apply Nat.leb_le; lia).
  rewrite E. simpl. now rewrite Hr.
Qed.

Lemma run_app (s : state) (a b : list action) : run s (a ++ b) = run (run s a) b.
Proof. apply fold_left_app. Qed.

(** A change to a blank value cancels the scheduled timer and schedules
    none. *)
Lemma change_blank (s : state) (v : str) :
  quiet s -> v <> query s -> ~ valid_query v ->
  query (change v s) = v /\ requests (change v s) = [] /\
  timers (change v s) = [] /\ cleanup (change v s) = None.
Proof.
  intros [Hr Ht] Hne Hv. unfold change.
  apply str_eqb_neq in Hne. rewrite Hne.
  assert (Hb : (List.length (trim v) =? 0) = true).
  { apply Nat.eqb_eq. unfold valid_query in Hv.
    destruct (trim v); [reflexivity | elim Hv; discriminate]. }
  unfold effect, run_cleanup.
  destruct Ht as [[Ht Hc] | (id & t & Ht & Hc & _)]; rewrite Hc; simpl;
    rewrite Hb; simpl.
  - repeat split; auto.
  - rewrite Ht. simpl. rewrite Nat.eqb_refl. repeat split; auto.
Qed.

(** A change of the input, to any value, followed by a wait shorter than
    the delay: still no search has been issued. *)
Lemma change_then_short_wait (s : state) (v : str) (d : nat) :
  quiet s -> v <> query s -> d < delay ->
  quiet (elapse d (change v s)) /\ query (elapse d (change v s)) = v.
Proof.
  intros Hq Hne Hd.
  destruct (forallb is_white_space v) eqn:Hblank.
  - assert (Hv : ~ valid_query v) by (intros Hv; apply Hv; now apply trim_blank).
    destruct (change_blank Hq Hne Hv) as (Hquery & Hr & Ht & Hc).
    unfold elapse. rewrite Ht. simpl.
    split; [|exact Hquery]. split; [exact Hr|]. left. split; [reflexivity | exact Hc].
  - assert (Hv : valid_query v).
    { intros H. apply trim_blank in H. congruence. }
    destruct (change_arms Hq Hne Hv) as (Ha & Hquery & _).
    destruct (elapse_short Ha Hd) as (Hq' & Hquery').
    split; [exact Hq' | now rewrite Hquery'].
Qed.

Lemma typing_keeps_quiet (changes : list (str * nat)) :
  forall (s : state) (rest : list str),
    quiet s ->
    Forall (fun c => snd c < delay) changes ->
    changing (query s) (map fst changes ++ rest) ->
    quiet (run s (typing changes)) /\ changing (query (run s (typing changes))) rest.
Proof.
  induction changes as [|[v d] changes IH]; intros s rest Hq Hall Hch.
  - split; assumption.
  - inversion Hall as [|c l Hd Hall']; subst. simpl in Hd, Hch.
    destruct Hch as [Hne Hch].
    destruct (change_then_short_wait Hq Hne Hd) as (Hq' & Hquery).
    simpl. apply IH; [exact Hq' | exact Hall' |].
    now rewrite Hquery.
Qed.

Lemma initial_quiet : quiet initial.
Proof. split; [reflexivity | left; split; reflexivity]. Qed.

(** C8.  Let the input change again and again, each change less than the
    debounce delay after the one before, ending with a value [last] that
    is not empty after trimming (the sense in which the controller tests
    an input for being empty; of the earlier values of the burst nothing
    is required).
    After the last change exactly one timer is scheduled, the one of
    [last] (the timers of the earlier values have been cleared), and no
    search has been issued.  Once the delay has passed, exactly one
    search has been issued, and it is for [last]. *)
Theorem burst_dispatches_once :
  forall (changes : list (str * nat)) (last : str) (wait : nat),
    Forall (fun c => snd c < delay) changes ->
    valid_query last ->
    changing [] (map fst changes ++ [last]) ->
    delay <= wait ->
    let typed := run initial (typing changes ++ [Input last]) in
    (exists id, timers typed = [{| timer_id := id; due := clock typed + delay;
                                   captured := last |}]) /\
    requests typed = [] /\
    requests (run typed [Elapse wait]) = [(clock typed + delay, last)] /\
    timers (run typed [Elapse wait]) = [].
Proof.
  intros changes last wait Hall Hlast Hch Hwait typed.
  destruct (@typing_keeps_quiet changes initial [last] initial_quiet Hall Hch)
    as (Hq & Hne & _).
  destruct (change_arms Hq Hne Hlast) as (Ha & Hquery & _).
  assert (Et : typed = change last (run initial (typing changes))).
  { unfold typed. now rewrite run_app. }
  rewrite <- Et in Ha, Hquery.
  destruct (elapse_long Ha Hwait) as (Hreq & Htim).
  destruct Ha as (Hr & id & Ht & Hc).
  rewrite Hquery in *.
  repeat split; eauto.
Qed.

Lemma burst_dispatches_once_witness :
  let typed := run initial (typing [(lit "m", 40); (lit "mo", 60)] ++ [Input (lit "mon")]) in
  (exists id, timers typed = [{| timer_id := id; due := clock typed + delay;
                                 captured := lit "mon" |}]) /\
  requests typed = [] /\
  requests (run typed [Elapse 150]) = [(clock typed + delay, lit "mon")] /\
  timers (run typed [Elapse 150]) = [].
Proof.
  apply (@burst_dispatches_once [(lit "m", 40); (lit "mo", 60)] (lit "mon") 150).
  - repeat constructor; unfold delay; simpl; lia.
  - vm_compute; discriminate.
  - simpl. repeat split; discriminate.
  - unfold delay. lia.
Defined.

(** A burst through a blank value: the input changes to [m], to a single
    space and to [mo], 50 ms apart.  The space clears the timer of [m]
    and schedules none; the only search is the one for [mo]. *)
Example burst_through_blank :
  requests (run initial (typing [(lit "m", 50); (lit " ", 50)]
                           ++ [Input (lit "mo"); Elapse delay]))
  = [(250, lit "mo")].
Proof. vm_compute. reflexivity. Qed.

(** C4 fails on the code.  The cleanup of the effect clears the timer
    only; a search already issued is not cancelled and its completion is
    not checked against the current input.
    - The value [m] is searched after 150 ms; the input changes to [mo];
      the response for [m] arrives and its results are stored and rendered
      while the query is [mo] and no search for [mo] has been issued.
    - The same with the input cleared instead: the results of [m] are
      stored while the input is empty.
    - Both [m] and [mo] are searched and the responses arrive in the
      opposite order: the results of [m] replace those of [mo]. *)
Theorem stale_response_updates_results :
  let monitor := Backend.product_result 7 (Some (lit "Monitor")) None None None 0%Q in
  let mouse := Backend.product_result 8 (Some (lit "Mouse")) None None None 0%Q in
  let s1 := run initial [Input (lit "m"); Elapse 150; Input (lit "mo");
                         Respond 0 (Body (Some [monitor; mouse]))] in
  let s2 := run initial [Input (lit "m"); Elapse 150; Input [];
                         Respond 0 (Body (Some [monitor; mouse]))] in
  let s3 := run initial [Input (lit "m"); Elapse 150; Input (lit "mo"); Elapse 150;
                         Respond 1 (Body (Some [mouse]));
                         Respond 0 (Body (Some [monitor; mouse]))] in
  (query s1 = lit "mo" /\ requests s1 = [(150, lit "m")] /\
   results s1 = map normalize [monitor; mouse] /\
   cards s1 = map normalize [monitor; mouse]) /\
  (query s2 = [] /\ requests s2 = [(150, lit "m")] /\
   results s2 = map normalize [monitor; mouse]) /\
  (query s3 = lit "mo" /\ requests s3 = [(150, lit "m"); (300, lit "mo")] /\
   results s3 = map normalize [monitor; mouse] /\
   cards s3 = map normalize [monitor; mouse]).
Proof.
  cbv zeta. repeat split; vm_compute; reflexivity.
Qed.

End SessionClaims.

(** ** The highlighter *)

(** *** The split loop terminates within its fuel *)

(** A matcher only moves forward. *)
Lemma matcher_progress (ic : bool) (input : str) (r : regex) :
  forall x k y,
    matcher r ic input x k = Some y ->
    exists x', endIndex x <= endIndex x' /\ k x' = Some y.
Proof.
  induction r as [|c| | | |r1 IH1 r2 IH2|r1 IH1 r2 IH2|n r IH]; intros x k y H; simpl in H.
  - exists x. split; [lia | exact H].
  - destruct (nth_error input (endIndex x)) as [ch|]; [|discriminate].
    destruct (char_match ic ch c); [|discriminate].
    exists (step x). split; [simpl; lia | exact H].
  - destruct (nth_error input (endIndex x)) as [ch|]; [|discriminate].
    destruct (is_line_terminator ch); [discriminate|].
    exists (step x). split; [simpl; lia | exact H].
  - destruct (endIndex x =? 0); [|discriminate].
    exists x. split; [lia | exact H].
  - destruct (endIndex x =? List.length input); [|discriminate].
    exists x. split; [lia | exact H].
  - apply IH1 in H. destruct H as (x1 & H1 & H).
    apply IH2 in H. destruct H as (x2 & H2 & H).
    exists x2. split; [lia | exact H].
  - destruct (matcher r1 ic input x k) as [y1|] eqn:E.
    + injection H as ->. now apply IH1.
    + now apply IH2.
  - apply IH in H. destruct H as (x1 & H1 & H).
    exists (capture n (endIndex x) x1). split; [exact H1 | exact H].
Qed.

Lemma match_at_progress (R : RegExp) (input : str) (q : nat) (y : mstate) :
  match_at R input q = Some y -> q <= endIndex y.
Proof.
  unfold match_at. intros H. apply matcher_progress in H.
  destruct H as (x' & Hle & Hx). injection Hx as <-. exact Hle.
Qed.

(** Every round of the loop either moves [q] forward or closes a part
    at [q]; with more fuel than twice the distance to the end (and one
    for an open part) the fuel never runs out, so more of it changes
    nothing. *)
Lemma split_loop_fuel (R : RegExp) (input : str) (fuel : nat) :
  forall p q,
    p <= q ->
    2 * (List.length input - q) + (if p <? q then 1 else 0) < fuel ->
    split_loop fuel R input p q = split_loop (S fuel) R input p q.
Proof.
  induction fuel as [|fuel IH]; intros p q Hpq Hfuel; [lia|].
  change (split_loop (S (S fuel)) R input p q) with
    (if List.length input <=? q then [Some (substring p (List.length input) input)]
     else match match_at R input q with
          | None => split_loop (S fuel) R input p (S q)
          | Some y =>
              let e := Nat.min (endIndex y) (List.length input) in
              if e =? p then split_loop (S fuel) R input p (S q)
              else Some (substring p q input)
                     :: captured R input y ++ split_loop (S fuel) R input e e
          end).
  simpl split_loop.
  destruct (List.length input <=? q) eqn:Hend; [reflexivity|].
  apply Nat.leb_gt in Hend.
  assert (Hnext : split_loop fuel R input p (S q) = split_loop (S fuel) R input p (S q)).
  { apply IH; [lia|].
    assert (E : (p <? S q) = true) by (apply Nat.ltb_lt; lia).
    rewrite E. destruct (p <? q); lia. }
  destruct (match_at R input q) as [y|] eqn:Hm; [|exact Hnext].
  cbv zeta. apply match_at_progress in Hm.
  set (e := Nat.min (endIndex y) (List.length input)).
  destruct (e =? p) eqn:Hep; [exact Hnext|].
  apply Nat.eqb_neq in Hep.
  rewrite (IH e e); [reflexivity | lia |].
  rewrite Nat.ltb_irrefl.
  assert (He : q <= e) by (unfold e; lia).
  destruct (p <? q) eqn:Hlt.
  - lia.
  - apply Nat.ltb_ge in Hlt. lia.
Qed.

Lemma split_loop_enough (R : RegExp) (input : str) (extra : nat) :
  split_loop (2 * List.length input + 2 + extra) R input 0 0
  = split_loop (2 * List.length input + 2) R input 0 0.
Proof.
  induction extra as [|extra IH]; [now rewrite Nat.add_0_r|].
  rewrite Nat.add_succ_r. rewrite <- split_loop_fuel; [exact IH | lia |].
  simpl. lia.
Qed.

(** *** Escaped terms parse as literals *)

Lemma escape_class_is_syntax (c : ascii) : in_escape_class c = is_syntax_character c.
Proof.
  destruct c as [[] [] [] [] [] [] [] []]; reflexivity.
Qed.

Lemma not_syntax_plain (c : ascii) :
  is_syntax_character c = false ->
  Ascii.eqb c "|" = false /\ Ascii.eqb c ")" = false /\ Ascii.eqb c "(" = false /\
  Ascii.eqb c "\" = false /\ Ascii.eqb c "." = false /\ Ascii.eqb c "^" = false /\
  Ascii.eqb c "$" = false /\ Ascii.eqb c "?" = false.
Proof.
  destruct c as [[] [] [] [] [] [] [] []]; vm_compute; intros H;
    try discriminate H; repeat split.
Qed.

Lemma parse_alternative_S (fuel : nat) (s : str) (n : nat) :
  parse_alternative (S fuel) s n =
  match s with
  | [] => Some (Empty, [], n)
  | c :: s' =>
      if Ascii.eqb c "|" || Ascii.eqb c ")" then Some (Empty, s, n)
      else if Ascii.eqb c "(" then
        if starts_with "?" s' then None
        else
          match parse_disjunction fuel s' (S n) with
          | Some (r, ")"%char :: s'', n') =>
              match parse_alternative fuel s'' n' with
              | Some (r', rest, n'') => Some (Seq (Group (S n) r) r', rest, n'')
              | None => None
              end
          | _ => None
          end
      else if Ascii.eqb c "\" then
        match s' with
        | d :: s'' =>
            if is_syntax_character d then
              match parse_alternative fuel s'' n with
              | Some (r', rest, n') => Some (Seq (Char d) r', rest, n')
              | None => None
              end
            else None
        | [] => None
        end
      else
        let atom :=
          if Ascii.eqb c "." then Some Dot
          else if Ascii.eqb c "^" then Some Bol
          else if Ascii.eqb c "$" then Some Eol
          else if is_syntax_character c then None
          else Some (Char c) in
        match atom with
        | Some a =>
            match parse_alternative fuel s' n with
            | Some (r', rest, n') => Some (Seq a r', rest, n')
            | None => None
            end
        | None => None
        end
  end.
Proof. reflexivity. Qed.

Lemma parse_disjunction_S (fuel : nat) (s : str) (n : nat) :
  parse_disjunction (S fuel) s n =
  match parse_alternative fuel s n with
  | Some (r, "|"%char :: rest, n') =>
      match parse_disjunction fuel rest n' with
      | Some (r', rest', n'') => Some (Alt r r', rest', n'')
      | None => None
      end
  | other => other
  end.
Proof. reflexivity. Qed.

(** What a parser leaves over is no longer than what it was given. *)
Lemma parse_suffix (fuel : nat) :
  (forall s n r rest n', parse_alternative fuel s n = Some (r, rest, n') ->
                         List.length rest <= List.length s) /\
  (forall s n r rest n', parse_disjunction fuel s n = Some (r, rest, n') ->
                         List.length rest <= List.length s).
Proof.
  induction fuel as [|fuel [IHa IHd]]; [split; discriminate|].
  split.
  - intros s n r rest n' H. rewrite parse_alternative_S in H.
    destruct s as [|c s']; [injection H as <- <- <-; lia|].
    destruct (Ascii.eqb c "|" || Ascii.eqb c ")"); [injection H as <- <- <-; lia|].
    destruct (Ascii.eqb c "(").
    { destruct (starts_with "?" s'); [discriminate|].
      destruct (parse_disjunction fuel s' (S n)) as [[[r1 rest1] n1]|] eqn:E1; [|discriminate].
      apply IHd in E1.
      destruct rest1 as [|c1 s'']; [discriminate|].
      destruct (Ascii.eqb c1 ")") eqn:Ec.
      - apply Ascii.eqb_eq in Ec. subst c1.
        destruct (parse_alternative fuel s'' n1) as [[[r2 rest2] n2]|] eqn:E2; [|discriminate].
        apply IHa in E2. injection H as <- <- <-. simpl in *. lia.
      - destruct c1 as [[] [] [] [] [] [] [] []]; try discriminate H; discriminate Ec. }
    destruct (Ascii.eqb c "\").
    { destruct s' as [|d s'']; [discriminate|].
      destruct (is_syntax_character d); [|discriminate].
      destruct (parse_alternative fuel s'' n) as [[[r2 rest2] n2]|] eqn:E2; [|discriminate].
      apply IHa in E2. injection H as <- <- <-. simpl in *. lia. }
    cbv zeta in H.
    destruct (if Ascii.eqb c "." then Some Dot
              else if Ascii.eqb c "^" then Some Bol
              else if Ascii.eqb c "$" then Some Eol
              else if is_syntax_character c then None else Some (Char c)); [|discriminate].
    destruct (parse_alternative fuel s' n) as [[[r2 rest2] n2]|] eqn:E2; [|discriminate].
    apply IHa in E2. injection H as <- <- <-. simpl in *. lia.
  - intros s n r rest n' H. rewrite parse_disjunction_S in H.
    destruct (parse_alternative fuel s n) as [[[r1 rest1] n1]|] eqn:E1; [|discriminate].
    apply IHa in E1.
    destruct rest1 as [|c1 rest1']; [injection H as <- <- <-; exact E1|].
    destruct (Ascii.eqb c1 "|") eqn:Ec.
    + apply Ascii.eqb_eq in Ec. subst c1.
      destruct (parse_disjunction fuel rest1' n1) as [[[r2 rest2] n2]|] eqn:E2; [|discriminate].
      apply IHd in E2. injection H as <- <- <-. simpl in *. lia.
    + destruct c1 as [[] [] [] [] [] [] [] []]; try discriminate Ec;
        injection H as <- <- <-; exact E1.
Qed.

(** A parse started with two units of fuel for every character (and one
    or two to spare) does not depend on the fuel. *)
Lemma parse_fuel (fuel : nat) :
  (forall s n, 2 * List.length s + 1 <= fuel ->
               parse_alternative fuel s n = parse_alternative (S fuel) s n) /\
  (forall s n, 2 * List.length s + 2 <= fuel ->
               parse_disjunction fuel s n = parse_disjunction (S fuel) s n).
Proof.
  induction fuel as [|fuel [IHa IHd]]; [split; intros; lia|].
  destruct (parse_suffix fuel) as [Sa Sd].
  split.
  - intros s n Hfuel. rewrite (parse_alternative_S (S fuel)), (parse_alternative_S fuel).
    destruct s as [|c s']; [reflexivity|]. simpl in Hfuel.
    destruct (Ascii.eqb c "|" || Ascii.eqb c ")"); [reflexivity|].
    destruct (Ascii.eqb c "(").
    { destruct (starts_with "?" s'); [reflexivity|].
      rewrite <- IHd by lia.
      destruct (parse_disjunction fuel s' (S n)) as [[[r1 rest1] n1]|] eqn:E1; [|reflexivity].
      apply Sd in E1.
      destruct rest1 as [|c1 s'']; [reflexivity|].
      destruct (Ascii.eqb c1 ")") eqn:Ec.
      - apply Ascii.eqb_eq in Ec. subst c1. simpl in E1.
        rewrite <- IHa by lia. reflexivity.
      - destruct c1 as [[] [] [] [] [] [] [] []]; try discriminate Ec; reflexivity. }
    destruct (Ascii.eqb c "\").
    { destruct s' as [|d s'']; [reflexivity|]. simpl in Hfuel.
      destruct (is_syntax_character d); [|reflexivity].
      rewrite <- IHa by lia. reflexivity. }
    cbv zeta.
    destruct (if Ascii.eqb c "." then Some Dot
              else if Ascii.eqb c "^" then Some Bol
              else if Ascii.eqb c "$" then Some Eol
              else if is_syntax_character c then None else Some (Char c)); [|reflexivity].
    rewrite <- IHa by lia. reflexivity.
  - intros s n Hfuel. rewrite (parse_disjunction_S (S fuel)), (parse_disjunction_S fuel).
    rewrite <- IHa by lia.
    destruct (parse_alternative fuel s n) as [[[r1 rest1] n1]|] eqn:E1; [|reflexivity].
    apply Sa in E1.
    destruct rest1 as [|c1 rest1']; [reflexivity|].
    destruct (Ascii.eqb c1 "|") eqn:Ec.
    + apply Ascii.eqb_eq in Ec. subst c1. simpl in E1.
      rewrite <- IHd by lia. reflexivity.
    + destruct c1 as [[] [] [] [] [] [] [] []]; try discriminate Ec; reflexivity.
Qed.

(** The fuel of [RegExp_new] is never used up: with more of it the parse
    is the same. *)
Lemma parse_enough (source : str) (extra : nat) :
  parse_disjunction (2 * List.length source + 2 + extra) source 0
  = parse_disjunction (2 * List.length source + 2) source 0.
Proof.
  induction extra as [|extra IH]; [now rewrite Nat.add_0_r|].
  rewrite Nat.add_succ_r.
  destruct (parse_fuel (2 * List.length source + 2 + extra)) as [_ H].
  rewrite <- H by lia. exact IH.
Qed.

(** What follows an escaped term is parsed as if the term were not there,
    and the term contributes its characters as literals. *)
Lemma parse_escaped (t : str) :
  forall (fuel : nat) (rest : str) (n : nat),
    parse_alternative (List.length t + fuel) (escape t ++ rest) n =
    match parse_alternative fuel rest n with
    | Some (r, rest', n') => Some (literal_then t r, rest', n')
    | None => None
    end.
Proof.
  induction t as [|c t IH]; intros fuel rest n.
  - simpl. destruct (parse_alternative fuel rest n) as [[[r rest'] n']|]; reflexivity.
  - change (List.length (c :: t) + fuel) with (S (List.length t + fuel)).
    rewrite parse_alternative_S.
    unfold escape. simpl flat_map. fold (escape t).
    rewrite escape_class_is_syntax.
    destruct (is_syntax_character c) eqn:Hc; simpl app.
    + simpl Ascii.eqb. simpl orb. cbv iota. rewrite Hc, IH.
      destruct (parse_alternative fuel rest n) as [[[r rest'] n']|]; reflexivity.
    + destruct (not_syntax_plain c Hc) as (H1 & H2 & H3 & H4 & H5 & H6 & H7 & _).
      rewrite H1, H2, H3, H4, H5, H6, H7, Hc. simpl orb. cbv iota zeta.
      rewrite IH.
      destruct (parse_alternative fuel rest n) as [[[r rest'] n']|]; reflexivity.
Qed.

Lemma length_escape (t : str) : List.length t <= List.length (escape t).
Proof.
  induction t as [|c t IH]; simpl; [lia|].
  destruct (in_escape_class c); simpl; lia.
Qed.

Lemma parse_joined (ts : list str) :
  ts <> [] ->
  forall (fuel n : nat),
    List.length (join (lit "|") (map escape ts)) + 2 <= fuel ->
    parse_disjunction fuel (join (lit "|") (map escape ts) ++ lit ")") n
    = Some (alternation (map literal ts), lit ")", n).
Proof.
  induction ts as [|t ts IH]; intros Hne fuel n Hfuel; [congruence|].
  destruct fuel as [|fuel]; [lia|].
  rewrite parse_disjunction_S.
  destruct ts as [|t2 ts].
  - simpl in *. pose proof (length_escape t).
    replace fuel with (List.length t + (S (fuel - List.length t - 1))) by lia.
    rewrite parse_escaped. reflexivity.
  - change (join (lit "|") (map escape (t :: t2 :: ts)))
      with (escape t ++ lit "|" ++ join (lit "|") (map escape (t2 :: ts)))%list in *.
    rewrite !length_app in Hfuel. simpl List.length in Hfuel.
    pose proof (length_escape t).
    rewrite <- !app_assoc.
    replace fuel with (List.length t + (S (fuel - List.length t - 1))) at 1 by lia.
    rewrite parse_escaped. simpl.
    rewrite IH by (try discriminate; simpl in *; lia).
    reflexivity.
Qed.

Lemma joined_head (ts : list str) :
  starts_with "?" (join (lit "|") (map escape ts) ++ lit ")") = false.
Proof.
  assert (H : forall t rest, starts_with "?" (escape t ++ rest) = true ->
                             t = [] /\ starts_with "?" rest = true).
  { intros [|c t] rest; simpl; [auto|].
    rewrite escape_class_is_syntax.
    destruct (is_syntax_character c) eqn:Hc; simpl; [discriminate|].
    destruct (not_syntax_plain c Hc) as (_ & _ & _ & _ & _ & _ & _ & Hq).
    rewrite Hq. discriminate. }
  destruct (starts_with "?" _) eqn:E; [|reflexivity].
  destruct ts as [|t [|t2 ts]]; simpl in E; try discriminate.
  - apply H in E. destruct E as [_ E]. discriminate.
  - rewrite <- app_assoc in E. apply H in E. destruct E as [_ E]. discriminate.
Qed.

Lemma RegExp_new_combined (ts : list str) :
  ts <> [] ->
  RegExp_new (combined_source (map escape ts)) "gi" = Some (highlight_regex ts).
Proof.
  intros Hne. unfold RegExp_new, combined_source.
  change (known_flags "gi") with true. cbv iota.
  set (body := join (lit "|") (map escape ts)).
  change (lit "(" ++ body ++ lit ")")%list with ("("%char :: (body ++ lit ")"))%list.
  change (List.length ("("%char :: body ++ lit ")")) with (S (List.length (body ++ lit ")"))).
  rewrite length_app. simpl (List.length (lit ")")).
  replace (2 * S (List.length body + 1) + 2)
    with (S (S (S (List.length body + 2 + (List.length body + 1))))) by lia.
  rewrite parse_disjunction_S, parse_alternative_S.
  simpl Ascii.eqb. simpl orb. cbv iota.
  unfold body. rewrite joined_head.
  rewrite parse_joined by (auto; lia).
  simpl. reflexivity.
Qed.

Lemma RegExp_new_anchored (t : str) :
  RegExp_new (anchored_source (escape t)) "i" = Some (anchored_regex t).
Proof.
  unfold RegExp_new, anchored_source.
  change (known_flags "i") with true. cbv iota.
  change (lit "^" ++ escape t ++ lit "$")%list with ("^"%char :: (escape t ++ lit "$"))%list.
  change (List.length ("^"%char :: escape t ++ lit "$")) with (S (List.length (escape t ++ lit "$"))).
  rewrite length_app. simpl (List.length (lit "$")).
  pose proof (length_escape t).
  replace (2 * S (List.length (escape t) + 1) + 2)
    with (S (S (List.length t + (S (S (2 * List.length (escape t) - List.length t + 2))))))
    by lia.
  rewrite parse_disjunction_S, parse_alternative_S.
  simpl Ascii.eqb. simpl orb. cbv iota zeta.
  rewrite parse_escaped. simpl. reflexivity.
Qed.

(** *** Matching literal terms *)

Lemma skipn_cons_nth {A} (l : list A) :
  forall i a s, skipn i l = a :: s -> nth_error l i = Some a /\ skipn (S i) l = s.
Proof.
  induction l as [|b l IH]; intros i a s H.
  - destruct i; discriminate.
  - destruct i as [|i]; simpl in H.
    + injection H as -> ->. split; reflexivity.
    + apply IH in H. exact H.
Qed.

Lemma skipn_nil_nth {A} (l : list A) :
  forall i, skipn i l = [] -> nth_error l i = None.
Proof.
  induction l as [|b l IH]; intros i H.
  - destruct i; reflexivity.
  - destruct i as [|i]; simpl in H; [discriminate|]. simpl. now apply IH.
Qed.

Lemma matcher_literal_then (ic : bool) (input : str) (r : regex)
      (k : mstate -> option mstate) (t : str) :
  forall x,
    matcher (literal_then t r) ic input x k =
    if matches_prefix ic t (skipn (endIndex x) input)
    then matcher r ic input (advance x (List.length t)) k
    else None.
Proof.
  induction t as [|c t IH]; intros x.
  - simpl. unfold advance. rewrite Nat.add_0_r. destruct x; reflexivity.
  - simpl literal_then. simpl matcher.
    destruct (skipn (endIndex x) input) as [|ch s] eqn:E.
    + rewrite (skipn_nil_nth _ _ E). reflexivity.
    + destruct (skipn_cons_nth _ _ E) as [Hn Hs]. rewrite Hn. simpl.
      destruct (char_match ic ch c); simpl; [|reflexivity].
      rewrite IH. simpl endIndex. rewrite Hs.
      unfold advance, step. simpl. now rewrite Nat.add_succ_r.
Qed.

Lemma matcher_alternation (ic : bool) (input : str) (k : mstate -> option mstate)
      (ts : list str) (x : mstate) :
  ts <> [] ->
  (forall y, k y <> None) ->
  matcher (alternation (map literal ts)) ic input x k =
  match find (fun t => matches_prefix ic t (skipn (endIndex x) input)) ts with
  | Some t => k (advance x (List.length t))
  | None => None
  end.
Proof.
  intros Hne Hk. induction ts as [|t ts IH]; [congruence|].
  destruct ts as [|t2 ts].
  - simpl. unfold literal. rewrite matcher_literal_then. simpl.
    destruct (matches_prefix ic t _); reflexivity.
  - change (alternation (map literal (t :: t2 :: ts)))
      with (Alt (literal t) (alternation (map literal (t2 :: ts)))).
    simpl matcher. unfold literal at 1. rewrite matcher_literal_then.
    simpl find.
    destruct (matches_prefix ic t _).
    + simpl. destruct (k (advance x (List.length t))) eqn:E; [reflexivity|].
      now apply Hk in E.
    + apply IH. discriminate.
Qed.

(** One attempt of the highlighter's expression: the first term, in the
    order of the list, that matches at [q]; the group captures the
    matched text. *)
Lemma match_at_highlight (ts : list str) (input : str) (q : nat) :
  ts <> [] ->
  match_at (highlight_regex ts) input q =
  match first_match ts input q with
  | Some t => Some {| endIndex := q + List.length t;
                      captures := [(1, (q, q + List.length t))] |}
  | None => None
  end.
Proof.
  intros Hne. unfold match_at, highlight_regex, first_match. simpl.
  rewrite matcher_alternation by (auto; discriminate).
  reflexivity.
Qed.

Lemma match_at_anchored (t part : str) (q : nat) :
  match match_at (anchored_regex t) part q with Some _ => true | None => false end
  = (q =? 0) && same_text t part.
Proof.
  unfold match_at, anchored_regex, same_text. simpl.
  destruct q as [|q]; simpl; [|reflexivity].
  rewrite matcher_literal_then. simpl.
  destruct (matches_prefix true t part); simpl; [|reflexivity].
  destruct (List.length t =? List.length part); reflexivity.
Qed.

Lemma RegExp_test_anchored (t part : str) :
  RegExp_test (anchored_regex t) part = same_text t part.
Proof.
  unfold RegExp_test. simpl seq. simpl existsb.
  rewrite match_at_anchored. simpl.
  assert (H : existsb (fun q => match match_at (anchored_regex t) part q with
                                | Some _ => true | None => false end)
                      (seq 1 (List.length part)) = false).
  { apply not_true_is_false. intros H. apply existsb_exists in H.
    destruct H as (q & Hin & Hq). apply in_seq in Hin.
    rewrite match_at_anchored in Hq. destruct q; [lia | discriminate]. }
  rewrite H. apply orb_false_r.
Qed.

(** The test of a part against the escaped terms never throws, and tells
    whether the part is one of the terms up to case. *)
Lemma isMatch_escaped (ts : list str) (part : str) :
  isMatch (map escape ts) part = Some (existsb (fun t => same_text t part) ts).
Proof.
  induction ts as [|t ts IH]; simpl; [reflexivity|].
  rewrite RegExp_new_anchored, RegExp_test_anchored.
  destruct (same_text t part); simpl; [reflexivity | exact IH].
Qed.

(** *** The spans of a text *)

Lemma matches_prefix_length (ic : bool) (t : str) :
  forall s, matches_prefix ic t s = true -> List.length t <= List.length s.
Proof.
  induction t as [|c t IH]; intros [|ch s] H; simpl in *; try lia; try discriminate.
  apply andb_true_iff in H. destruct H as [_ H]. apply IH in H. lia.
Qed.

Lemma matches_prefix_firstn (ic : bool) (t : str) :
  forall s, matches_prefix ic t s = true ->
            matches_prefix ic t (firstn (List.length t) s) = true.
Proof.
  induction t as [|c t IH]; intros [|ch s] H; simpl in *; try discriminate; auto.
  apply andb_true_iff in H. destruct H as [H1 H2].
  rewrite H1. simpl. now apply IH.
Qed.

Lemma matches_prefix_of_firstn (ic : bool) (t : str) :
  forall n s, matches_prefix ic t (firstn n s) = true -> matches_prefix ic t s = true.
Proof.
  induction t as [|c t IH]; intros n s H; [reflexivity|].
  destruct n as [|n]; [discriminate|].
  destruct s as [|ch s]; [discriminate|]. simpl in *.
  apply andb_true_iff in H. destruct H as [H1 H2].
  rewrite H1. simpl. eapply IH; eauto.
Qed.

Lemma substring_length (p q : nat) (s : str) :
  q <= List.length s -> List.length (substring p q s) = q - p.
Proof.
  intros H. unfold substring. rewrite length_firstn, length_skipn. lia.
Qed.

Lemma firstn_plus {A} (a b : nat) :
  forall l : list A, firstn (a + b) l = (firstn a l ++ firstn b (skipn a l))%list.
Proof.
  induction a as [|a IH]; intros [|x l]; simpl; try reflexivity.
  - now rewrite firstn_nil.
  - now rewrite IH.
Qed.

Lemma substring_app (p q r : nat) (s : str) :
  p <= q -> q <= r ->
  (substring p q s ++ substring q r s)%list = substring p r s.
Proof.
  intros Hpq Hqr. unfold substring.
  replace (r - p) with ((q - p) + (r - q)) by lia.
  rewrite firstn_plus. f_equal.
  rewrite skipn_skipn. f_equal. f_equal. lia.
Qed.

Lemma substring_to_end (p : nat) (s : str) :
  substring p (List.length s) s = skipn p s.
Proof.
  unfold substring. apply firstn_all2. rewrite length_skipn. lia.
Qed.

Lemma find_sorted_longest (f : str -> bool) (l : list str) :
  StronglySorted (fun a b => List.length b <= List.length a) l ->
  forall t, find f l = Some t ->
  forall u, In u l -> f u = true -> List.length u <= List.length t.
Proof.
  induction 1 as [|a l Hs IH Ha]; intros t H u Hu Hm; [contradiction|].
  simpl in H. destruct Hu as [Hu|Hu].
  - subst u. rewrite Hm in H. injection H as ->. lia.
  - destruct (f a).
    + injection H as ->. rewrite Forall_forall in Ha. now apply Ha.
    + eapply IH; eauto.
Qed.

Section Scan.
Variable ts : list str.
Variable input : str.
Hypothesis ts_nonempty : ts <> [].
Hypothesis terms_nonempty : Forall (fun t => t <> []) ts.
Hypothesis terms_sorted :
  StronglySorted (fun a b => List.length b <= List.length a) ts.


(** Among sorted terms the first that matches is a longest that
    matches. *)
Lemma first_match_longest (q : nat) (t : str) :
  first_match ts input q = Some t ->
  In t ts /\ matches_here t input q /\
  forall u, In u ts -> matches_here u input q -> List.length u <= List.length t.
Proof.
  unfold first_match, matches_here. intros H.
  destruct (find_some _ _ H) as [Hin Hm].
  split; [exact Hin|]. split; [exact Hm|].
  intros u Hu Hu'.
  exact (@find_sorted_longest (fun t => matches_prefix true t (skipn q input))
           ts terms_sorted t H u Hu Hu').
Qed.

Lemma first_match_none (q : nat) :
  first_match ts input q = None -> forall u, In u ts -> ~ matches_here u input q.
Proof.
  unfold first_match, matches_here. intros H u Hu Hm.
  pose proof (find_none _ _ H u Hu) as E. simpl in E. congruence.
Qed.

(** A stretch of text in which no term matches is not itself a term. *)
Lemma unmatched_stretch (p q : nat) :
  p <= q -> q <= (List.length input) ->
  (forall i u, p <= i < q -> In u ts -> ~ matches_here u input i) ->
  existsb (fun t => same_text t (substring p q input)) ts = false.
Proof.
  intros Hpq Hq Hno. apply not_true_is_false. intros H.
  apply existsb_exists in H. destruct H as (t & Ht & Hsame).
  unfold same_text in Hsame. apply andb_true_iff in Hsame.
  destruct Hsame as [Hm Hlen]. apply Nat.eqb_eq in Hlen.
  rewrite substring_length in Hlen by exact Hq.
  rewrite Forall_forall in terms_nonempty.
  assert (Hpos : 0 < List.length t).
  { pose proof (terms_nonempty t Ht). destruct t; [congruence | simpl; lia]. }
  apply (Hno p t); [lia | exact Ht |].
  unfold matches_here. unfold substring in Hm.
  eapply matches_prefix_of_firstn; eauto.
Qed.

Lemma matched_text (q : nat) (t : str) :
  q <= (List.length input) ->
  matches_here t input q ->
  q + List.length t <= (List.length input) /\
  same_text t (substring q (q + List.length t) input) = true.
Proof.
  unfold matches_here. intros Hle Hm.
  pose proof (matches_prefix_length _ _ _ Hm) as Hlen.
  rewrite length_skipn in Hlen.
  assert (Hq : q + List.length t <= List.length input) by lia.
  split; [exact Hq|].
  unfold same_text. rewrite substring_length by exact Hq.
  replace (q + List.length t - q) with (List.length t) by lia.
  rewrite Nat.eqb_refl, andb_true_r.
  unfold substring. replace (q + List.length t - q) with (List.length t) by lia.
  now apply matches_prefix_firstn.
Qed.

Lemma render_cons (part : option str) (parts : list (option str)) :
  render (map escape ts) (part :: parts) =
  match render (map escape ts) parts with
  | Some spans =>
      Some ({| span_text := shown part;
               highlighted := existsb (fun t => same_text t (tested part)) ts |} :: spans)
  | None => None
  end.
Proof.
  simpl. rewrite isMatch_escaped.
  destruct (render (map escape ts) parts); reflexivity.
Qed.

(** The loop of [split] with the highlighter's expression, rendered:
    the spans cover the text from [p] on and are segmented. *)
Lemma split_loop_spans (fuel : nat) :
  forall p q,
    p <= q -> q <= (List.length input) -> (List.length input) - q < fuel ->
    (forall i u, p <= i < q -> In u ts -> ~ matches_here u input i) ->
    exists spans,
      render (map escape ts) (split_loop fuel (highlight_regex ts) input p q) = Some spans /\
      List.concat (map span_text spans) = substring p (List.length input) input /\
      segmented ts input p spans.
Proof.
  induction fuel as [|fuel IH]; intros p q Hpq Hq Hfuel Hno; [lia|].
  simpl split_loop.
  destruct (List.length input <=? q) eqn:Hend.
  - apply Nat.leb_le in Hend. assert (q = List.length input) by lia. subst q.
    rewrite render_cons. simpl render. simpl tested. simpl shown.
    rewrite (unmatched_stretch Hpq Hq Hno).
    eexists. split; [reflexivity|]. split; [simpl; apply app_nil_r|].
    simpl. split; [|exact I].
    intros i u Hi Hu. apply Hno; [|exact Hu].
    rewrite substring_length in Hi by lia. lia.
  - apply Nat.leb_gt in Hend.
    rewrite match_at_highlight by exact ts_nonempty.
    destruct (first_match ts input q) as [t|] eqn:Hfirst.
    + destruct (first_match_longest _ Hfirst) as (Hin & Hm & Hlong).
      destruct (matched_text Hq Hm) as (He & Hsame).
      simpl endIndex.
      rewrite (Nat.min_l _ _ He).
      assert (Hpos : 0 < List.length t).
      { rewrite Forall_forall in terms_nonempty.
        pose proof (terms_nonempty t Hin). destruct t; [congruence | simpl; lia]. }
      assert (Hne : (q + List.length t =? p) = false) by (apply Nat.eqb_neq; lia).
      rewrite Hne.
      assert (Hrest : forall i u, q + List.length t <= i < q + List.length t ->
                                  In u ts -> ~ matches_here u input i)
        by (intros i u Hi; lia).
      destruct (IH (q + List.length t) (q + List.length t)
                   (Nat.le_refl _) He ltac:(lia) Hrest) as (spans & Hr & Hc & Hseg).
      unfold captured. simpl map. simpl capture_get. simpl app.
      rewrite render_cons. rewrite render_cons. rewrite Hr.
      simpl tested. simpl shown.
      rewrite (unmatched_stretch Hpq Hq Hno).
      assert (Hhl : existsb (fun t0 => same_text t0 (substring q (q + List.length t) input)) ts
                    = true).
      { apply existsb_exists. exists t. split; assumption. }
      rewrite Hhl.
      eexists. split; [reflexivity|]. split.
      * simpl. rewrite Hc. rewrite substring_app by lia.
        apply substring_app; lia.
      * simpl. rewrite !substring_length by lia.
        replace (p + (q - p)) with q by lia.
        replace (q + (q + List.length t - q)) with (q + List.length t) by lia.
        split; [intros i u Hi Hu; apply Hno; [lia | exact Hu]|].
        split; [|exact Hseg].
        split; [exists t; split; assumption|].
        intros u Hu Hmu. replace (q + List.length t - q) with (List.length t) by lia.
        now apply Hlong.
    + apply IH; try lia.
      intros i u Hi Hu. destruct (Nat.eq_dec i q) as [->|Hiq].
      * eapply first_match_none; eauto.
      * apply Hno; [lia | exact Hu].
Qed.
End Scan.

(** *** The terms of a query *)

Lemma by_length_after (a b : str) :
  comes_after by_length a b = true <-> List.length a < List.length b.
Proof.
  unfold comes_after, by_length, sign_Z.
  destruct (Z.compare_spec (Z.of_nat (List.length b) - Z.of_nat (List.length a)) 0);
    split; intros; try discriminate; try reflexivity; lia.
Qed.

Lemma by_length_in_order (a b : str) :
  in_order by_length a b <-> List.length b <= List.length a.
Proof.
  unfold in_order. split.
  - intros H. apply Nat.nlt_ge. intros Hlt. apply by_length_after in Hlt. congruence.
  - intros H. destruct (comes_after by_length a b) eqn:E; [|reflexivity].
    apply by_length_after in E. lia.
Qed.

Lemma query_terms_sorted (query : str) :
  StronglySorted (fun a b => List.length b <= List.length a) (query_terms query).
Proof.
  unfold query_terms.
  set (tokens := filter _ _).
  assert (H : StronglySorted (in_order by_length) (Array_sort by_length tokens)).
  { apply Array_sort_sorted.
    - intros x y Hxy. apply by_length_in_order. apply by_length_after in Hxy. lia.
    - intros x y z Hxy Hyz. apply by_length_in_order.
      apply by_length_in_order in Hxy. apply by_length_in_order in Hyz. lia. }
  induction H as [|a l Hs IH Ha]; constructor; [exact IH|].
  eapply Forall_impl; [|exact Ha]. intros b. apply by_length_in_order.
Qed.

Lemma query_terms_nonempty (query : str) :
  Forall (fun t => t <> []) (query_terms query).
Proof.
  unfold query_terms.
  eapply Permutation_Forall; [apply Array_sort_perm|].
  apply Forall_forall. intros t Ht. apply filter_In in Ht.
  destruct Ht as [_ Ht]. destruct t; [discriminate | discriminate].
Qed.

(** What the component renders: it never throws, its spans spell the
    text, and they are segmented by the terms of the query. *)
Lemma HighlightedText_spans (text query : str) :
  exists spans,
    HighlightedText text query = Some spans /\
    List.concat (map span_text spans) = text /\
    segmented (query_terms query) text 0 spans.
Proof.
  unfold HighlightedText.
  destruct text as [|c text]; [exists []; repeat split|].
  change (List.length (c :: text) =? 0) with false. cbv iota.
  set (txt := c :: text).
  assert (Hplain : forall ts, ts = [] ->
            List.concat (map span_text [plain txt]) = txt /\
            segmented ts txt 0 [plain txt]).
  { intros ts ->. split; [exact (app_nil_r txt)|].
    simpl. split; [|exact I]. intros i u _ []. }
  destruct query as [|d query].
  - exists [plain txt]. split; [reflexivity|]. now apply Hplain.
  - change (List.length (d :: query) =? 0) with false. cbv iota zeta.
    set (ts := query_terms (d :: query)).
    destruct ts as [|t ts'] eqn:Ets.
    + exists [plain txt]. split; [reflexivity|]. now apply Hplain.
    + change (List.length (t :: ts') =? 0) with false. cbv iota.
      rewrite RegExp_new_combined by discriminate.
      unfold String_split.
      change (List.length txt =? 0) with false. cbv iota.
      assert (Hsorted : StronglySorted (fun a b => List.length b <= List.length a)
                                       (t :: ts'))
        by (rewrite <- Ets; apply query_terms_sorted).
      assert (Hne : Forall (fun t => t <> []) (t :: ts'))
        by (rewrite <- Ets; apply query_terms_nonempty).
      destruct (@split_loop_spans (t :: ts') txt ltac:(discriminate) Hne Hsorted
                  (2 * List.length txt + 2) 0 0 (Nat.le_refl 0) (Nat.le_0_l _)
                  ltac:(lia) ltac:(intros; lia))
        as (spans & Hr & Hc & Hseg).
      exists spans. split; [exact Hr|]. split; [|exact Hseg].
      rewrite Hc. rewrite substring_to_end. reflexivity.
Qed.

Section HighlighterClaims.

(** C6.  For every text and every query the component renders, and the
    texts of its spans, concatenated in order, are the text. *)
Theorem highlight_covers_text :
  forall (text query : str),
    exists spans,
      HighlightedText text query = Some spans /\
      List.concat (map span_text spans) = text.
Proof.
  intros text query.
  destruct (HighlightedText_spans text query) as (spans & H & Hc & _).
  exists spans. split; assumption.
Qed.

(** C7, as amended.  The terms are tried in order of descending length.
    Every highlighted span equals one of the terms up to case, and no
    term that matches the text at the span's offset (as a substring,
    without regard to case) is longer than the span: where several terms
    match at the same index the longest is highlighted, in one span.  No
    term matches at an index inside a span that is not highlighted.  The
    spans carry the text as it is written. *)
Theorem highlight_prefers_longest_term :
  forall (text query : str),
    StronglySorted (fun a b => List.length b <= List.length a) (query_terms query) /\
    exists spans,
      HighlightedText text query = Some spans /\
      segmented (query_terms query) text 0 spans /\
      List.concat (map span_text spans) = text.
Proof.
  intros text query. split; [apply query_terms_sorted|].
  destruct (HighlightedText_spans text query) as (spans & H & Hc & Hseg).
  exists spans. repeat split; assumption.
Qed.

(** C7 as stated fails.  In the query [an nan] the term [an] is a strict
    substring of [nan], and the text [banana] contains [nan] at index 2.
    The scan finds [an] at index 1, where [nan] does not match, and again
    at index 3: the letters of the longer term end up in two spans and
    no span is [nan]. *)
Lemma longer_term_can_be_fragmented :
  query_terms (lit "an nan") = [lit "nan"; lit "an"] /\
  lit "banana" = (lit "ba" ++ lit "nan" ++ lit "a")%list /\
  HighlightedText (lit "banana") (lit "an nan")
  = Some [ plain (lit "b");
           {| span_text := lit "an"; highlighted := true |};
           plain [];
           {| span_text := lit "an"; highlighted := true |};
           plain (lit "a") ] /\
  ~ (exists spans,
        HighlightedText (lit "banana") (lit "an nan") = Some spans /\
        In {| span_text := lit "nan"; highlighted := true |} spans).
Proof.
  split; [reflexivity|]. split; [reflexivity|].
  assert (E : HighlightedText (lit "banana") (lit "an nan")
              = Some [ plain (lit "b");
                       {| span_text := lit "an"; highlighted := true |};
                       plain [];
                       {| span_text := lit "an"; highlighted := true |};
                       plain (lit "a") ]) by (vm_compute; reflexivity).
  split; [exact E|].
  intros (spans & H & Hin). rewrite E in H. injection H as <-.
  simpl in Hin. decompose [or] Hin; try discriminate; contradiction.
Qed.

(** The two queries of the specification on the sample product name. *)
Example highlight_lap :
  HighlightedText (lit "Laptop Screen Replacement 15.6 inch") (lit "lap")
  = Some [ plain [];
           {| span_text := lit "Lap"; highlighted := true |};
           plain (lit "top Screen Replacement 15.6 inch") ].
Proof. vm_compute. reflexivity. Qed.

Example highlight_laptop_screen :
  HighlightedText (lit "Laptop Screen Replacement 15.6 inch") (lit "lap laptop screen")
  = Some [ plain [];
           {| span_text := lit "Laptop"; highlighted := true |};
           plain (lit " ");
           {| span_text := lit "Screen"; highlighted := true |};
           plain (lit " Replacement 15.6 inch") ].
Proof. vm_compute. reflexivity. Qed.

End HighlighterClaims.

(* ===================================================================== *)
(** * Further properties *)
(* ===================================================================== *)

(** ** The controller: every path of the handler *)

Section HandlerPaths.
Import Backend.

Lemma blank_or_valid (s : str) :
  (forallb is_white_space s = true /\
   (List.length s =? 0) || str_eqb (trim s) [] = true) \/
  (valid_query s /\ (List.length s =? 0) || str_eqb (trim s) [] = false).
Proof.
  destruct (forallb is_white_space s) eqn:E.
  - left. split; [reflexivity | now apply validation_fails].
  - right. assert (Hv : valid_query s).
    { intros H. apply trim_blank in H. congruence. }
    split; [exact Hv | now apply validation_passes].
Qed.

Lemma valid_not_blank (s : str) : valid_query s -> ~ blank_query (QString s).
Proof.
  intros Hv [H | (s' & H & Hs)]; [discriminate|].
  injection H as <-. apply trim_blank in Hs. now apply Hv.
Qed.

(** The four answers of the handler, with the condition of each. *)
Lemma globalSearch_cases (Product : Model ProductDoc) (Article : Model ArticleDoc)
      (req : request) (w : world) :
  exists resp w',
    globalSearch Product Article req w = (Return resp, w') /\
    ((blank_query (query_q req) /\ resp = bad_request /\ w' = w) \/
     (~ blank_query (query_q req) /\ exists e, resp = server_error e) \/
     (~ blank_query (query_q req) /\
      exists s rs, query_q req = QString s /\ rs <> [] /\ resp = found s rs) \/
     (~ blank_query (query_q req) /\
      exists s, query_q req = QString s /\ resp = no_results s)).
Proof.
  destruct req as [[| s |]]; unfold globalSearch, try_catch, bind; simpl.
  - exists bad_request, w. split; [reflexivity|]. left. repeat split. now left.
  - destruct (blank_or_valid s) as [[Hb E] | [Hv E]]; rewrite E.
    + exists bad_request, w. split; [reflexivity|]. left. repeat split.
      right. now exists s.
    + pose proof (valid_not_blank Hv) as Hnb.
      destruct (find Product (product_filter s) product_projection w)
        as [[products | e] w1].
      * destruct (find Article (article_filter s) article_projection w1)
          as [[articles | e] w2].
        -- set (rs := Array_sort by_score (combine products articles)).
           destruct rs as [|r rs'] eqn:Ers; simpl.
           ++ eexists. eexists. split; [reflexivity|].
              right. right. right. split; [exact Hnb|]. now exists s.
           ++ eexists. eexists. split; [reflexivity|].
              right. right. left. split; [exact Hnb|].
              exists s, (r :: rs'). repeat split. discriminate.
        -- eexists. eexists. split; [reflexivity|].
           right. left. split; [exact Hnb|]. now exists e.
      * eexists. eexists. split; [reflexivity|].
        right. left. split; [exact Hnb|]. now exists e.
  - eexists. eexists. split; [reflexivity|].
    right. left. split; [|eexists; reflexivity].
    intros [H | (s & H & _)]; discriminate.
Qed.

(** X1.  Whatever the request and whatever the sources do, the handler
    answers: it never lets an exception escape, the status is 200, 400 or
    500, and the [success] flag of the body is true exactly for 200. *)
Theorem globalSearch_always_answers :
  forall (Product : Model ProductDoc) (Article : Model ArticleDoc)
         (req : request) (w : world),
    exists resp w',
      globalSearch Product Article req w = (Return resp, w') /\
      (status resp = 200 \/ status resp = 400 \/ status resp = 500) /\
      body_get "success" (body resp) = Some (JBool (status resp =? 200)).
Proof.
  intros Product Article req w.
  destruct (globalSearch_cases Product Article req w) as (resp & w' & Hrun & Hcase).
  exists resp, w'. split; [exact Hrun|].
  destruct Hcase as [(_ & -> & _) | [(_ & e & ->) | [(_ & s & rs & _ & _ & ->)
                    | (_ & s & _ & ->)]]]; simpl; auto.
Qed.

(** X2.  The answer has status 400 exactly when [q] is missing, empty or
    white space only; in particular a [q] that is no string (an array or
    an object of the query-string parser) is not answered with 400. *)
Theorem bad_request_iff_blank :
  forall (Product : Model ProductDoc) (Article : Model ArticleDoc)
         (req : request) (w : world),
    (exists resp w',
        globalSearch Product Article req w = (Return resp, w') /\ status resp = 400)
    <-> blank_query (query_q req).
Proof.
  intros Product Article req w.
  destruct (globalSearch_cases Product Article req w) as (resp & w' & Hrun & Hcase).
  split.
  - intros (resp' & w'' & Hrun' & Hst). rewrite Hrun in Hrun'.
    injection Hrun' as <- <-.
    destruct Hcase as [(Hb & _) | [(_ & e & ->) | [(_ & s & rs & _ & _ & ->)
                      | (_ & s & _ & ->)]]]; [exact Hb | discriminate Hst ..].
  - intros Hb. exists resp, w'. split; [exact Hrun|].
    destruct Hcase as [(_ & -> & _) | [(Hn & _) | [(Hn & _) | (Hn & _)]]];
      [reflexivity | contradiction ..].
Qed.

(** X3.  All or nothing.  On a valid query, when the Product query
    throws, or when it answers and the Article query throws, the handler
    answers 500 with the message of the error and without results; the
    world is the one the failing query left, so after a failure of the
    Product query the Article query is not issued. *)
Theorem source_failure_aborts :
  forall (Product : Model ProductDoc) (Article : Model ArticleDoc)
         (s e : str) (w w' : world),
    valid_query s ->
    (find Product (product_filter s) product_projection w = (Throw e, w') \/
     exists products w1,
       find Product (product_filter s) product_projection w = (Return products, w1) /\
       find Article (article_filter s) article_projection w1 = (Throw e, w')) ->
    globalSearch Product Article {| query_q := QString s |} w
    = (Return {| status := 500;
                 body := [("success", JBool false);
                          ("message", JStr (lit "Server error occurred"));
                          ("error", JStr e)]%string |}, w').
Proof.
  intros Product Article s e w w' Hv H.
  unfold globalSearch, try_catch, bind; simpl.
  rewrite (validation_passes Hv).
  destruct H as [H | (products & w1 & HP & HA)].
  - now rewrite H.
  - now rewrite HP, HA.
Qed.

(** X4.  On a valid query for which the sources return at least one
    record, the body is [{success, count, query, results}] without a
    message: [count] is the number of records the two sources returned
    together, and [query] is the search term as it was sent, not
    trimmed. *)
Theorem found_body :
  forall (Product : Model ProductDoc) (Article : Model ArticleDoc)
         (s : str) (w w1 w2 : world)
         (products : list ProductDoc) (articles : list ArticleDoc),
    valid_query s ->
    find Product (product_filter s) product_projection w = (Return products, w1) ->
    find Article (article_filter s) article_projection w1 = (Return articles, w2) ->
    0 < List.length products + List.length articles ->
    exists resp,
      globalSearch Product Article {| query_q := QString s |} w = (Return resp, w2) /\
      status resp = 200 /\
      map fst (body resp) = ["success"; "count"; "query"; "results"]%string /\
      body_get "count" (body resp)
      = Some (JNum (List.length products + List.length articles)) /\
      body_get "query" (body resp) = Some (JStr s).
Proof.
  intros Product Article s w w1 w2 products articles Hv HP HA Hpos.
  pose proof (@globalSearch_answers Product Article s w w1 w2 products articles
                Hv HP HA) as Hrun.
  cbv zeta in Hrun.
  set (rs := Array_sort by_score (combine products articles)) in *.
  assert (Hlen : List.length rs = List.length products + List.length articles).
  { unfold rs. rewrite <- (Permutation_length (Array_sort_perm by_score _)).
    unfold combine. now rewrite length_app, !length_map. }
  destruct (List.length rs =? 0) eqn:E; [apply Nat.eqb_eq in E; lia|].
  exists (found s rs). split; [exact Hrun|].
  simpl. rewrite Hlen. repeat split.
Qed.

End HandlerPaths.

(** ** The controller: what a plain search term finds *)

Section PlainSearch.
Import Backend.

Lemma escape_plain (t : str) : plain_term t -> escape t = t.
Proof.
  induction 1 as [|c t Hc _ IH]; [reflexivity|].
  unfold escape in *. simpl. rewrite escape_class_is_syntax, Hc. simpl.
  now rewrite IH.
Qed.

Lemma RegExp_new_plain (t : str) :
  plain_term t -> RegExp_new t "i" = Some (plain_regex t).
Proof.
  intros Hp. unfold RegExp_new.
  change (known_flags "i") with true. cbv iota.
  replace (2 * List.length t + 2)
    with (S (List.length t + S (List.length t))) by lia.
  rewrite parse_disjunction_S.
  pose proof (parse_escaped t (S (List.length t)) [] 0) as H.
  rewrite app_nil_r, (escape_plain Hp) in H. rewrite H. reflexivity.
Qed.

Lemma existsb_same {A} (f g : A -> bool) (l : list A) :
  (forall a, f a = g a) -> existsb f l = existsb g l.
Proof.
  intros H. induction l as [|a l IH]; simpl; [reflexivity|]. now rewrite H, IH.
Qed.

Lemma RegExp_test_plain (t v : str) :
  RegExp_test (plain_regex t) v = occurs_in t v.
Proof.
  unfold RegExp_test, occurs_in. apply existsb_same. intros q.
  unfold match_at, plain_regex, literal. simpl.
  rewrite matcher_literal_then. simpl.
  destruct (matches_prefix true t (skipn q v)); reflexivity.
Qed.

Lemma filter_same {A} (f g : A -> bool) (l : list A) :
  (forall a, f a = g a) -> filter f l = filter g l.
Proof.
  intros H. induction l as [|a l IH]; simpl; [reflexivity|]. now rewrite H, IH.
Qed.

Lemma plain_products (s : str) (c : Collection ProductDoc) :
  matching_products (RegExp_test (plain_regex s)) c
  = map (project_product product_projection)
        (filter (fun d => mentions s [p_name d; p_description d; p_category d])
                (documents c)).
Proof.
  unfold matching_products. f_equal. apply filter_same. intros d.
  unfold satisfies, mentions, product_text. simpl.
  destruct (p_name d), (p_description d), (p_category d);
    rewrite ?RegExp_test_plain; reflexivity.
Qed.

Lemma plain_articles (s : str) (c : Collection ArticleDoc) :
  matching_articles (RegExp_test (plain_regex s)) c
  = map (project_article article_projection)
        (filter (fun d => mentions s [a_title d; a_content d; a_author d])
                (documents c)).
Proof.
  unfold matching_articles. f_equal. apply filter_same. intros d.
  unfold satisfies, mentions, article_text. simpl.
  destruct (a_title d), (a_content d), (a_author d);
    rewrite ?RegExp_test_plain; reflexivity.
Qed.

(** X5.  Substring search.  For a valid search term without pattern
    syntax, with both collections reachable, the results are the
    products whose name, description or category contains the term, and
    then the articles whose title, content or author contains it: the
    whole term, spaces included, anywhere in the field (inside a word
    too), without regard to case. *)
Theorem plain_term_finds_substrings :
  forall (pc : Collection ProductDoc) (ac : Collection ArticleDoc)
         (s : str) (w : world),
    valid_query s ->
    plain_term s ->
    failure pc = None ->
    failure ac = None ->
    exists resp,
      globalSearch (Product_model pattern_engine pc) (Article_model pattern_engine ac)
                   {| query_q := QString s |} w
      = (Return resp, after_query ac (after_query pc w)) /\
      status resp = 200 /\
      body_get "results" (body resp)
      = Some (JResults
                (map of_product
                   (map (project_product product_projection)
                      (filter (fun d => mentions s [p_name d; p_description d; p_category d])
                              (documents pc)))
                 ++ map of_article
                   (map (project_article article_projection)
                      (filter (fun d => mentions s [a_title d; a_content d; a_author d])
                              (documents ac))))).
Proof.
  intros pc ac s w Hv Hp Hpc Hac.
  assert (He : pattern_engine s "i"%string = Some (RegExp_test (plain_regex s))).
  { unfold pattern_engine. now rewrite (RegExp_new_plain Hp). }
  pose proof (@globalSearch_answers (Product_model pattern_engine pc)
                (Article_model pattern_engine ac) s w _ _ _ _ Hv
                (@find_products pattern_engine pc s _ w He Hpc)
                (@find_articles pattern_engine ac s _ (after_query pc w) He Hac)) as Hrun.
  cbv zeta in Hrun.
  rewrite all_zero_unmoved in Hrun
    by (apply Forall_app; split; [apply product_score_zero | apply article_score_zero]).
  eexists. split; [exact Hrun|].
  split; [destruct (List.length _ =? 0); reflexivity|].
  rewrite results_of_answer. unfold combine.
  now rewrite plain_products, plain_articles.
Qed.

End PlainSearch.

(** ** The highlighter: the terms of a query *)

Section Tokenizer.

Lemma split_ws_tokens (s : str) :
  forall cur in_ws,
    forallb visible cur = true ->
    Forall (fun t => forallb visible t = true) (split_ws_from cur in_ws s).
Proof.
  induction s as [|c s IH]; intros cur in_ws Hcur; simpl.
  - now constructor.
  - destruct (is_white_space c) eqn:Hc.
    + destruct in_ws; [now apply IH|].
      constructor; [exact Hcur | now apply IH].
    + apply IH. rewrite forallb_app, Hcur. simpl. unfold visible. now rewrite Hc.
Qed.

Lemma split_ws_concat (s : str) :
  forall cur in_ws,
    List.concat (split_ws_from cur in_ws s) = (cur ++ filter visible s)%list.
Proof.
  induction s as [|c s IH]; intros cur in_ws; simpl.
  - reflexivity.
  - unfold visible at 1. destruct (is_white_space c) eqn:Hc; simpl.
    + destruct in_ws; [apply IH|]. simpl. now rewrite IH.
    + rewrite IH, <- app_assoc. reflexivity.
Qed.

Lemma trim_start_visible (s : str) :
  filter visible (trim_start s) = filter visible s.
Proof.
  induction s as [|c s IH]; simpl; [reflexivity|].
  unfold visible at 2. destruct (is_white_space c) eqn:Hc; simpl; [exact IH|].
  unfold visible at 1. now rewrite Hc.
Qed.

Lemma trim_visible (s : str) : filter visible (trim s) = filter visible s.
Proof.
  unfold trim, trim_end.
  rewrite filter_rev, trim_start_visible, filter_rev, rev_involutive.
  apply trim_start_visible.
Qed.

Lemma concat_nonempty (l : list str) :
  List.concat (filter (fun t => 0 <? List.length t) l) = List.concat l.
Proof.
  induction l as [|t l IH]; simpl; [reflexivity|].
  destruct t as [|c t]; simpl; [exact IH|]. now rewrite IH.
Qed.

Lemma Permutation_concat_str (l l' : list str) :
  Permutation l l' -> Permutation (List.concat l) (List.concat l').
Proof.
  induction 1 as [|x l l' _ IH|x y l|l l' l'' _ IH1 _ IH2]; simpl.
  - constructor.
  - now apply Permutation_app_head.
  - rewrite !app_assoc. apply Permutation_app_tail, Permutation_app_comm.
  - eapply perm_trans; eauto.
Qed.

Lemma filter_visible_nil (s : str) :
  filter visible s = [] <-> forallb is_white_space s = true.
Proof.
  induction s as [|c s IH]; simpl; [tauto|].
  unfold visible at 1. destruct (is_white_space c); simpl; [exact IH|].
  split; discriminate.
Qed.

Lemma tokens_cons_blank (c : ascii) (s : str) (ws : list str) :
  is_white_space c = true -> tokens_of s ws -> tokens_of (c :: s) ws.
Proof.
  intros Hc H. destruct H as [gap Hgap | gap w rest ws Hgap Hw Hrest Hws].
  - apply tokens_none. simpl. now rewrite Hc.
  - change (c :: gap ++ w ++ rest) with ((c :: gap) ++ w ++ rest)%list.
    apply tokens_next; auto. simpl. now rewrite Hc.
Qed.

Lemma tokens_lead (gap s : str) (ws : list str) :
  forallb is_white_space gap = true -> tokens_of s ws -> tokens_of (gap ++ s) ws.
Proof.
  induction gap as [|c gap IH]; intros Hgap H; [exact H|].
  simpl in Hgap. apply andb_true_iff in Hgap. destruct Hgap as [Hc Hgap].
  simpl. apply tokens_cons_blank; auto.
Qed.

Lemma blank_start_app (rest gap : str) :
  blank_start rest -> forallb is_white_space gap = true -> blank_start (rest ++ gap).
Proof.
  intros Hrest Hgap. destruct rest as [|c rest]; [|exact Hrest].
  destruct gap as [|c gap]; [exact I|].
  simpl in *. now apply andb_true_iff in Hgap.
Qed.

Lemma tokens_trail (s gap : str) (ws : list str) :
  tokens_of s ws -> forallb is_white_space gap = true -> tokens_of (s ++ gap) ws.
Proof.
  intros H Hgap.
  induction H as [gap0 Hgap0 | gap0 w rest ws Hgap0 Hw Hrest Hws IH].
  - apply tokens_none. now rewrite forallb_app, Hgap0, Hgap.
  - rewrite <- !app_assoc. apply tokens_next; auto.
    now apply blank_start_app.
Qed.

Lemma trim_start_gap (s : str) :
  exists gap, forallb is_white_space gap = true /\ s = (gap ++ trim_start s)%list.
Proof.
  induction s as [|c s (gap & Hgap & E)]; [now exists []|].
  simpl. destruct (is_white_space c) eqn:Hc.
  - exists (c :: gap). simpl. rewrite Hc, Hgap. split; [reflexivity | now f_equal].
  - now exists [].
Qed.

(** A string is its trimmed form between two stretches of white space. *)
Lemma trim_gaps (s : str) :
  exists before after,
    forallb is_white_space before = true /\
    forallb is_white_space after = true /\
    s = (before ++ trim s ++ after)%list.
Proof.
  destruct (trim_start_gap s) as (before & Hb & Es).
  destruct (trim_start_gap (rev (trim_start s))) as (gap & Hg & Er).
  exists before, (rev gap). split; [exact Hb|]. split; [now rewrite forallb_rev|].
  rewrite Es at 1. f_equal. unfold trim, trim_end.
  rewrite <- rev_app_distr, <- Er. now rewrite rev_involutive.
Qed.

(** The pieces of [split], the empty ones dropped, are the tokens. *)
Lemma split_ws_tokens_of (s : str) :
  (forall in_ws,
      tokens_of s (filter (fun t => 0 <? List.length t) (split_ws_from [] in_ws s))) /\
  (forall cur,
      cur <> [] -> forallb visible cur = true ->
      exists w rest ws,
        (cur ++ s)%list = (w ++ rest)%list /\ token w /\ blank_start rest /\
        tokens_of rest ws /\
        filter (fun t => 0 <? List.length t) (split_ws_from cur false s) = w :: ws).
Proof.
  induction s as [|c s [IH0 IH1]].
  - split.
    + intros in_ws. simpl. now apply tokens_none.
    + intros cur Hne Hvis. exists cur, [], []. simpl.
      split; [reflexivity|]. split; [split; assumption|].
      split; [exact I|]. split; [apply tokens_none; reflexivity|].
      destruct cur; [congruence | reflexivity].
  - split.
    + intros in_ws. simpl. destruct (is_white_space c) eqn:Hc.
      * destruct in_ws; simpl; apply tokens_cons_blank; auto.
      * assert (Hvis : forallb visible [c] = true)
          by (simpl; unfold visible; now rewrite Hc).
        destruct (IH1 [c] ltac:(discriminate) Hvis)
          as (w & rest & ws & E & Hw & Hrest & Hws & Hsplit).
        simpl in E. rewrite Hsplit, E.
        apply (@tokens_next [] w rest ws eq_refl Hw Hrest Hws).
    + intros cur Hne Hvis. simpl. destruct (is_white_space c) eqn:Hc.
      * exists cur, (c :: s), (filter (fun t => 0 <? List.length t)
                                      (split_ws_from [] true s)).
        split; [reflexivity|]. split; [split; assumption|].
        split; [exact Hc|]. split; [apply tokens_cons_blank; auto|].
        simpl. destruct cur; [congruence | reflexivity].
      * assert (Hvis' : forallb visible (cur ++ [c]) = true).
        { rewrite forallb_app, Hvis. simpl. unfold visible. now rewrite Hc. }
        destruct (IH1 (cur ++ [c])%list ltac:(now destruct cur) Hvis')
          as (w & rest & ws & E & Hw & Hrest & Hws & Hsplit).
        exists w, rest, ws. rewrite <- app_assoc in E. simpl in E.
        split; [exact E|]. split; [exact Hw|]. split; [exact Hrest|].
        split; [exact Hws | exact Hsplit].
Qed.

(** The tokens of a string are determined by it. *)
Lemma run_unique (P : ascii -> bool) (a : str) :
  forall a' b b',
    forallb P a = true -> forallb P a' = true ->
    match b with [] => True | c :: _ => P c = false end ->
    match b' with [] => True | c :: _ => P c = false end ->
    (a ++ b)%list = (a' ++ b')%list -> a = a' /\ b = b'.
Proof.
  induction a as [|x a IH]; intros a' b b' Ha Ha' Hb Hb' E.
  - destruct a' as [|y a']; [now split|].
    simpl in *. subst b. apply andb_true_iff in Ha'. destruct Ha' as [Hy _].
    congruence.
  - destruct a' as [|y a'].
    + simpl in *. subst b'. apply andb_true_iff in Ha. destruct Ha as [Hx _].
      congruence.
    + simpl in *. injection E as -> E.
      apply andb_true_iff in Ha. apply andb_true_iff in Ha'.
      destruct (IH a' b b') as [-> ->]; tauto.
Qed.

Lemma tokens_of_unique (s : str) (ws : list str) :
  tokens_of s ws -> forall ws', tokens_of s ws' -> ws = ws'.
Proof.
  assert (Hhead : forall w rest, token w ->
            match (w ++ rest)%list with [] => True | c :: _ => is_white_space c = false end).
  { intros w rest [Hne Hvis]. destruct w as [|c w]; [congruence|].
    simpl in *. apply andb_true_iff in Hvis. destruct Hvis as [Hc _].
    unfold visible in Hc. now destruct (is_white_space c). }
  assert (Hrest : forall rest, blank_start rest ->
            match rest with [] => True | c :: _ => visible c = false end).
  { intros [|c rest] H; [exact I|]. simpl in H. unfold visible. now rewrite H. }
  assert (Hblank : forall gap w rest, forallb is_white_space gap = true ->
            token w -> forallb is_white_space (gap ++ w ++ rest) = true -> False).
  { intros gap w rest _ [Hne Hvis] H. rewrite !forallb_app in H.
    apply andb_true_iff in H. destruct H as [_ H].
    apply andb_true_iff in H. destruct H as [H _].
    destruct w as [|c w]; [congruence|]. simpl in *.
    apply andb_true_iff in Hvis. apply andb_true_iff in H.
    unfold visible in Hvis. destruct (is_white_space c); intuition discriminate. }
  induction 1 as [gap Hgap | gap w rest ws Hgap Hw Hr Hws IH]; intros ws' H'.
  - inversion H' as [gap' Hgap' Es Ew | gap' w' rest' ws'' Hgap' Hw' Hr' Hws' Es Ew];
      [reflexivity|].
    exfalso. rewrite <- Es in Hgap. exact (Hblank gap' w' rest' Hgap' Hw' Hgap).
  - inversion H' as [gap' Hgap' Es Ew | gap' w' rest' ws'' Hgap' Hw' Hr' Hws' Es Ew].
    + exfalso. exact (Hblank gap w rest Hgap Hw Hgap').
    + destruct (@run_unique is_white_space gap' gap (w' ++ rest') (w ++ rest)
                  Hgap' Hgap (Hhead _ _ Hw') (Hhead _ _ Hw) Es) as [_ E2].
      destruct (@run_unique visible w' w rest' rest
                  (proj2 Hw') (proj2 Hw) (Hrest _ Hr') (Hrest _ Hr) E2) as [E3 E4].
      subst. f_equal. now apply IH.
Qed.

(** X6.  The terms of a query are, up to their order, the tokens of the
    query: its maximal runs of characters that are not white space, each
    taken once, whole and unchanged.  None is empty, none contains white
    space, no other list of strings is the tokens of the query, and
    there is no term exactly when the query is blank. *)
Theorem query_terms_are_its_tokens :
  forall (query : str),
    (exists ws, tokens_of query ws /\
                (forall ws', tokens_of query ws' -> ws' = ws) /\
                Permutation ws (query_terms query)) /\
    Forall token (query_terms query) /\
    Permutation (List.concat (query_terms query)) (filter visible query) /\
    (query_terms query = [] <-> forallb is_white_space query = true).
Proof.
  intros query.
  assert (Hperm : Permutation (List.concat (query_terms query)) (filter visible query)).
  { unfold query_terms.
    eapply perm_trans;
      [apply Permutation_concat_str, Permutation_sym, Array_sort_perm|].
    rewrite concat_nonempty. unfold split_whitespace.
    rewrite split_ws_concat, trim_visible. apply Permutation_refl. }
  split; [|split; [|split; [exact Hperm|]]].
  - set (ws := filter (fun t => 0 <? List.length t) (split_whitespace (trim query))).
    assert (Hws : tokens_of query ws).
    { destruct (trim_gaps query) as (before & after & Hb & Ha & E).
      rewrite E. apply tokens_lead; [exact Hb|]. apply tokens_trail; [|exact Ha].
      apply (proj1 (split_ws_tokens_of (trim query)) false). }
    exists ws. split; [exact Hws|]. split.
    + intros ws' H'. symmetry. eapply tokens_of_unique; eauto.
    + apply Array_sort_perm.
  - pose proof (query_terms_nonempty query) as Hne.
    assert (Hvis : Forall (fun t => forallb visible t = true) (query_terms query)).
    { unfold query_terms.
      eapply Permutation_Forall; [apply Array_sort_perm|].
      apply Forall_forall. intros t Ht. apply filter_In in Ht. destruct Ht as [Ht _].
      pose proof (@split_ws_tokens (trim query) [] false eq_refl) as H.
      rewrite Forall_forall in H. now apply H. }
    rewrite Forall_forall in *. intros t Ht. split; auto.
  - split.
    + intros E. rewrite E in Hperm. simpl in Hperm.
      apply Permutation_nil in Hperm. now apply filter_visible_nil.
    + intros Hb. apply trim_blank in Hb. unfold query_terms. now rewrite Hb.
Qed.

(** X7.  With a blank query (empty or white space only) nothing is
    highlighted: a text that is not empty is rendered as one plain span,
    the empty text as no span. *)
Theorem blank_query_highlights_nothing :
  forall (text query : str),
    forallb is_white_space query = true ->
    HighlightedText text query
    = Some (match text with [] => [] | _ :: _ => [plain text] end).
Proof.
  intros text query Hb. unfold HighlightedText.
  destruct text as [|c text]; [reflexivity|].
  change (List.length (c :: text) =? 0) with false. cbv iota.
  destruct query as [|d query]; [reflexivity|].
  change (List.length (d :: query) =? 0) with false. cbv iota zeta.
  apply trim_blank in Hb. unfold query_terms. rewrite Hb. reflexivity.
Qed.

End Tokenizer.

(** ** The highlighter: what is highlighted *)

Section Highlighting.

Lemma matches_prefix_app (ic : bool) (t : str) :
  forall s r, matches_prefix ic t s = true -> matches_prefix ic t (s ++ r) = true.
Proof.
  induction t as [|c t IH]; intros [|ch s] r H; simpl in *; try discriminate; auto.
  apply andb_true_iff in H. destruct H as [H1 H2].
  rewrite H1. simpl. now apply IH.
Qed.

Lemma skipn_past {A} (o : nat) (l a b : list A) :
  skipn o l = (a ++ b)%list -> skipn (o + List.length a) l = b.
Proof.
  intros H. rewrite Nat.add_comm, <- skipn_skipn, H.
  rewrite skipn_app, skipn_all, Nat.sub_diag. reflexivity.
Qed.

Lemma plain_spans_unmatched (ts : list str) (text : str) (spans : list span) :
  forall o,
    segmented ts text o spans ->
    existsb highlighted spans = false ->
    forall i u,
      o <= i < o + List.length (List.concat (map span_text spans)) ->
      In u ts -> ~ matches_here u text i.
Proof.
  induction spans as [|sp spans IH]; intros o Hseg Hplain i u Hi Hu; simpl in *; [lia|].
  apply orb_false_iff in Hplain. destruct Hplain as [Hsp Hrest].
  rewrite Hsp in Hseg. destruct Hseg as [Hhere Hseg].
  rewrite length_app in Hi.
  destruct (Nat.lt_ge_cases i (o + List.length (span_text sp))) as [Hlt|Hge].
  - apply Hhere; [lia | exact Hu].
  - eapply IH; eauto. lia.
Qed.

Lemma highlighted_span_matches (ts : list str) (text : str) (spans : list span) :
  Forall (fun t => t <> []) ts ->
  forall o,
    segmented ts text o spans ->
    skipn o text = List.concat (map span_text spans) ->
    existsb highlighted spans = true ->
    some_term_occurs ts text.
Proof.
  intros Hne. induction spans as [|sp spans IH]; intros o Hseg Hcover Hsome;
    simpl in *; [discriminate|].
  destruct Hseg as [Hhere Hseg].
  destruct (highlighted sp) eqn:Hsp.
  - destruct Hhere as [(t & Ht & Hsame) _].
    unfold same_text in Hsame. apply andb_true_iff in Hsame.
    destruct Hsame as [Hm Hlen]. apply Nat.eqb_eq in Hlen.
    exists t, o. split; [exact Ht|].
    rewrite Forall_forall in Hne. pose proof (Hne t Ht) as Htne.
    split.
    + destruct (Nat.lt_ge_cases o (List.length text)) as [Hlt|Hge]; [exact Hlt|].
      rewrite skipn_all2 in Hcover by exact Hge.
      destruct (span_text sp); [|discriminate].
      destruct t; [congruence | discriminate].
    + unfold matches_here. rewrite Hcover. now apply matches_prefix_app.
  - simpl in Hsome. eapply IH; eauto. now apply skipn_past with (a := span_text sp).
Qed.

(** X8.  Something is highlighted exactly when some term of the query
    occurs in the text (as a substring, without regard to case). *)
Theorem highlights_iff_term_occurs :
  forall (text query : str),
    exists spans,
      HighlightedText text query = Some spans /\
      (existsb highlighted spans = true <-> some_term_occurs (query_terms query) text).
Proof.
  intros text query.
  destruct (HighlightedText_spans text query) as (spans & Hrun & Hcover & Hseg).
  exists spans. split; [exact Hrun|]. split.
  - intros Hsome.
    eapply highlighted_span_matches;
      [apply query_terms_nonempty | exact Hseg | now rewrite Hcover | exact Hsome].
  - intros (t & i & Ht & Hi & Hm).
    destruct (existsb highlighted spans) eqn:E; [reflexivity|].
    exfalso. eapply (@plain_spans_unmatched _ _ _ 0 Hseg E i t); eauto.
    rewrite Hcover. lia.
Qed.

Lemma char_match_refl (c : ascii) : char_match true c c = true.
Proof. unfold char_match. apply Ascii.eqb_refl. Qed.

Lemma matches_prefix_refl (t : str) : matches_prefix true t t = true.
Proof.
  induction t as [|c t IH]; [reflexivity|].
  cbn [matches_prefix]. now rewrite char_match_refl, IH.
Qed.

Lemma trim_start_token (t : str) : token t -> trim_start t = t.
Proof.
  intros [Hne Hvis]. destruct t as [|c t]; [congruence|].
  simpl in *. apply andb_true_iff in Hvis. destruct Hvis as [Hc _].
  unfold visible in Hc. now destruct (is_white_space c).
Qed.

Lemma token_rev (t : str) : token t -> token (rev t).
Proof.
  intros [Hne Hvis]. split.
  - intros H. apply (f_equal (@rev ascii)) in H. rewrite rev_involutive in H.
    now apply Hne.
  - now rewrite forallb_rev.
Qed.

Lemma trim_token (t : str) : token t -> trim t = t.
Proof.
  intros Ht. unfold trim, trim_end. rewrite (trim_start_token Ht).
  rewrite (trim_start_token (token_rev Ht)). apply rev_involutive.
Qed.

Lemma split_ws_visible (s : str) :
  forall cur, forallb visible s = true ->
              split_ws_from cur false s = [(cur ++ s)%list].
Proof.
  induction s as [|c s IH]; intros cur H; simpl in *.
  - now rewrite app_nil_r.
  - apply andb_true_iff in H. destruct H as [Hc Hs].
    unfold visible in Hc. destruct (is_white_space c); [discriminate|].
    rewrite IH by exact Hs. now rewrite <- app_assoc.
Qed.

Lemma query_terms_token (t : str) : token t -> query_terms t = [t].
Proof.
  intros Ht. unfold query_terms, split_whitespace.
  rewrite (trim_token Ht). destruct Ht as [Hne Hvis].
  rewrite split_ws_visible by exact Hvis. simpl.
  destruct t; [congruence | reflexivity].
Qed.

Lemma split_loop_S (fuel : nat) (R : RegExp) (input : str) (p q : nat) :
  split_loop (S fuel) R input p q =
  if List.length input <=? q then [Some (substring p (List.length input) input)]
  else match match_at R input q with
       | None => split_loop fuel R input p (S q)
       | Some y =>
           let e := Nat.min (endIndex y) (List.length input) in
           if e =? p then split_loop fuel R input p (S q)
           else Some (substring p q input)
                  :: captured R input y ++ split_loop fuel R input e e
       end.
Proof. reflexivity. Qed.

(** X9.  Terms are matched as literal text.  A query that is one token,
    whatever its characters (pattern syntax included), highlights a text
    equal to it as a whole: one highlighted span between two empty plain
    spans. *)
Theorem token_highlights_itself :
  forall (t : str),
    token t ->
    HighlightedText t t
    = Some [plain []; {| span_text := t; highlighted := true |}; plain []].
Proof.
  intros t Ht. pose proof (query_terms_token Ht) as Hterms.
  destruct Ht as [Hne _].
  assert (Hlen : (List.length t =? 0) = false).
  { apply Nat.eqb_neq. destruct t; [congruence | discriminate]. }
  assert (Hle : (List.length t <=? 0) = false).
  { apply Nat.leb_gt. apply Nat.eqb_neq in Hlen. lia. }
  unfold HighlightedText. rewrite Hterms, Hlen.
  change (List.length [t] =? 0) with false. cbv iota zeta.
  rewrite RegExp_new_combined by discriminate.
  unfold String_split. rewrite Hlen.
  replace (2 * List.length t + 2) with (S (S (2 * List.length t))) by lia.
  assert (Hfirst : first_match [t] t 0 = Some t).
  { unfold first_match. cbn [find skipn]. now rewrite matches_prefix_refl. }
  assert (Hsame : same_text t t = true).
  { unfold same_text. now rewrite matches_prefix_refl, Nat.eqb_refl. }
  assert (Hempty : same_text t [] = false).
  { unfold same_text. destruct t; [congruence | reflexivity]. }
  rewrite split_loop_S, Hle.
  rewrite match_at_highlight by discriminate. rewrite Hfirst.
  cbv zeta. cbn [endIndex]. rewrite Nat.add_0_l, Nat.min_id, Hlen.
  rewrite split_loop_S, Nat.leb_refl.
  unfold captured. cbn [groups highlight_regex seq map captures capture_get Nat.eqb app].
  change [escape t] with (map escape [t]).
  rewrite !render_cons. cbn [render tested shown].
  unfold substring. rewrite !Nat.sub_diag, Nat.sub_0_r. cbn [skipn].
  rewrite firstn_all, !firstn_0.
  cbn [existsb]. rewrite Hsame, Hempty. reflexivity.
Qed.

End Highlighting.

(** ** The highlighter: the case of the query *)

Section QueryCase.

Lemma canonicalize_white_space (c : ascii) :
  is_white_space (canonicalize c) = is_white_space c.
Proof. destruct c as [[] [] [] [] [] [] [] []]; reflexivity. Qed.

Lemma canonicalize_idem (c : ascii) :
  canonicalize (canonicalize c) = canonicalize c.
Proof. destruct c as [[] [] [] [] [] [] [] []]; reflexivity. Qed.

Lemma trim_start_up (s : str) : trim_start (map canonicalize s) = map canonicalize (trim_start s).
Proof.
  induction s as [|c s IH]; simpl; [reflexivity|].
  rewrite canonicalize_white_space. destruct (is_white_space c); [exact IH | reflexivity].
Qed.

Lemma trim_up (s : str) : trim (map canonicalize s) = map canonicalize (trim s).
Proof.
  unfold trim, trim_end.
  now rewrite trim_start_up, <- map_rev, trim_start_up, map_rev.
Qed.

Lemma split_ws_up (s : str) :
  forall cur in_ws,
    split_ws_from (map canonicalize cur) in_ws (map canonicalize s) = map (map canonicalize) (split_ws_from cur in_ws s).
Proof.
  induction s as [|c s IH]; intros cur in_ws; simpl; [reflexivity|].
  rewrite canonicalize_white_space. destruct (is_white_space c).
  - destruct in_ws; [apply IH|]. simpl. f_equal. apply (IH [] true).
  - rewrite <- IH. now rewrite map_app.
Qed.

Lemma nonempty_up (l : list str) :
  filter (fun t => 0 <? List.length t) (map (map canonicalize) l)
  = map (map canonicalize) (filter (fun t => 0 <? List.length t) l).
Proof.
  induction l as [|t l IH]; simpl; [reflexivity|].
  rewrite length_map. destruct (0 <? List.length t); simpl; now rewrite IH.
Qed.

Lemma comes_after_up (a b : str) :
  comes_after by_length (map canonicalize a) (map canonicalize b) = comes_after by_length a b.
Proof. unfold comes_after, by_length. now rewrite !length_map. Qed.

Lemma sort_insert_up (x : str) (l : list str) :
  sort_insert by_length (map canonicalize x) (map (map canonicalize) l) = map (map canonicalize) (sort_insert by_length x l).
Proof.
  induction l as [|y l IH]; simpl; [reflexivity|].
  rewrite comes_after_up. destruct (comes_after by_length x y); simpl; [|reflexivity].
  now rewrite IH.
Qed.

Lemma Array_sort_up (l : list str) :
  Array_sort by_length (map (map canonicalize) l) = map (map canonicalize) (Array_sort by_length l).
Proof.
  induction l as [|x l IH]; simpl; [reflexivity|].
  now rewrite IH, sort_insert_up.
Qed.

Lemma query_terms_up (query : str) :
  query_terms (map canonicalize query) = map (map canonicalize) (query_terms query).
Proof.
  unfold query_terms, split_whitespace.
  rewrite trim_up. change (@nil ascii) with (map canonicalize []).
  now rewrite split_ws_up, nonempty_up, Array_sort_up.
Qed.

Lemma matches_prefix_up (t : str) :
  forall s, matches_prefix true (map canonicalize t) s = matches_prefix true t s.
Proof.
  induction t as [|c t IH]; intros [|ch s]; simpl; try reflexivity.
  unfold char_match. now rewrite canonicalize_idem, IH.
Qed.

Lemma first_match_up (ts : list str) (input : str) (q : nat) :
  first_match (map (map canonicalize) ts) input q = option_map (map canonicalize) (first_match ts input q).
Proof.
  unfold first_match. induction ts as [|t ts IH]; simpl; [reflexivity|].
  rewrite matches_prefix_up.
  destruct (matches_prefix true t (skipn q input)); [reflexivity | exact IH].
Qed.

Lemma match_at_up (ts : list str) (input : str) (q : nat) :
  ts <> [] ->
  match_at (highlight_regex (map (map canonicalize) ts)) input q = match_at (highlight_regex ts) input q.
Proof.
  intros Hne.
  assert (Hne' : map (map canonicalize) ts <> [])
    by (destruct ts; [congruence | discriminate]).
  rewrite (match_at_highlight _ _ Hne), (match_at_highlight _ _ Hne').
  rewrite first_match_up.
  destruct (first_match ts input q); simpl; [now rewrite length_map | reflexivity].
Qed.

(** The loop of [split] sees an expression only through its attempts to
    match and the number of its groups. *)
Lemma split_loop_same (R R' : RegExp) (input : str) (fuel : nat) :
  (forall q, match_at R input q = match_at R' input q) ->
  groups R = groups R' ->
  forall p q, split_loop fuel R input p q = split_loop fuel R' input p q.
Proof.
  intros Hm Hg. induction fuel as [|fuel IH]; intros p q; simpl; [reflexivity|].
  destruct (List.length input <=? q); [reflexivity|].
  rewrite Hm. destruct (match_at R' input q) as [y|]; [|apply IH].
  rewrite !IH. unfold captured. now rewrite Hg.
Qed.

Lemma same_text_up (t part : str) : same_text (map canonicalize t) part = same_text t part.
Proof. unfold same_text. now rewrite matches_prefix_up, length_map. Qed.

Lemma same_text_any_up (ts : list str) (part : str) :
  existsb (fun t => same_text t part) (map (map canonicalize) ts)
  = existsb (fun t => same_text t part) ts.
Proof.
  induction ts as [|t ts IH]; [reflexivity|].
  cbn [map existsb]. now rewrite same_text_up, IH.
Qed.

Lemma render_up (ts : list str) (parts : list (option str)) :
  render (map escape (map (map canonicalize) ts)) parts = render (map escape ts) parts.
Proof.
  induction parts as [|part parts IH]; [reflexivity|].
  now rewrite !render_cons, IH, same_text_any_up.
Qed.

(** The query and the query with every code unit folded give the same
    spans. *)
Lemma HighlightedText_folded_query :
  forall (text query : str),
    HighlightedText text (map canonicalize query) = HighlightedText text query.
Proof.
  intros text query. unfold HighlightedText.
  rewrite query_terms_up, !length_map.
  destruct (List.length text =? 0) eqn:Htext; [reflexivity|].
  destruct (List.length query =? 0); [reflexivity|].
  cbv zeta.
  destruct (query_terms query) as [|t ts] eqn:Eterms; [reflexivity|].
  change (List.length (t :: ts) =? 0) with false. cbv iota.
  rewrite !RegExp_new_combined by discriminate.
  rewrite render_up. f_equal.
  unfold String_split. rewrite Htext.
  apply split_loop_same; [|reflexivity].
  intros q. apply match_at_up. discriminate.
Qed.

(** X10.  Queries that differ only in the case of their letters
    highlight alike.  If two queries agree, code unit by code unit, after
    the case folding that the matcher applies under the [i] flag ([a-z]
    with [A-Z], the accented small letters below 256 with their capitals;
    the sharp s, the micro sign and y-diaeresis fold to themselves), they
    give the same spans for every text. *)
Theorem query_case_is_ignored :
  forall (text query query' : str),
    map canonicalize query = map canonicalize query' ->
    HighlightedText text query = HighlightedText text query'.
Proof.
  intros text query query' E.
  rewrite <- (HighlightedText_folded_query text query).
  rewrite <- (HighlightedText_folded_query text query').
  now rewrite E.
Qed.

End QueryCase.

(** ** The search session: what every run keeps *)

Section SessionRuns.
Import Session.

Lemma consistent_initial : consistent initial.
Proof. split; [now left | constructor]. Qed.

Lemma blank_length (v : str) :
  (List.length (trim v) =? 0) = true -> ~ valid_query v.
Proof.
  intros H Hv. apply Nat.eqb_eq in H. apply Hv. now destruct (trim v).
Qed.

(** What a change of the input does to the timers and to the log. *)
Lemma change_timers (s : state) (v : str) :
  consistent s -> v <> query s ->
  query (change v s) = v /\
  clock (change v s) = clock s /\
  requests (change v s) = requests s /\
  ((~ valid_query v /\ timers (change v s) = [] /\
    results (change v s) = [] /\ hasSearched (change v s) = false /\
    isLoading (change v s) = false) \/
   (valid_query v /\
    timers (change v s) = [{| timer_id := next_timer s; due := clock s + delay;
                              captured := v |}] /\
    cleanup (change v s) = Some (next_timer s))).
Proof.
  intros [Ht Hr] Hne. unfold change.
  apply str_eqb_neq in Hne. rewrite Hne.
  assert (Hclean : timers (run_cleanup s) = []).
  { unfold run_cleanup.
    destruct Ht as [Ht | (t & Ht & Hc & _)].
    - destruct (cleanup s); simpl; rewrite Ht; reflexivity.
    - rewrite Hc. simpl. rewrite Ht. simpl. now rewrite Nat.eqb_refl. }
  assert (Hsame : clock (run_cleanup s) = clock s /\
                  requests (run_cleanup s) = requests s /\
                  next_timer (run_cleanup s) = next_timer s).
  { unfold run_cleanup. destruct (cleanup s); repeat split. }
  destruct Hsame as (Hclock & Hreq & Hnext).
  unfold effect. cbn [query].
  destruct (List.length (trim v) =? 0) eqn:Hv; cbn.
  - repeat split; auto. left. repeat split; auto. now apply blank_length.
  - rewrite Hclean, Hclock, Hnext. repeat split; auto. right. repeat split.
    intros H. rewrite H in Hv. discriminate.
Qed.

Lemma consistent_change (s : state) (v : str) :
  consistent s -> consistent (change v s).
Proof.
  intros Hs. destruct (list_eq_dec ascii_dec v (query s)) as [E|Hne].
  - unfold change. apply str_eqb_eq in E. now rewrite E.
  - destruct (change_timers Hs Hne) as (Hq & Hc & Hr & Hcase).
    split; [|rewrite Hr; apply Hs].
    destruct Hcase as [(_ & Ht & _) | (Hv & Ht & Hcl)]; [now left|].
    right. eexists. split; [exact Ht|]. cbn. rewrite Hq, Hc.
    repeat split; auto; unfold delay; lia.
Qed.

Lemma consistent_elapse (s : state) (d : nat) :
  consistent s -> consistent (elapse d s).
Proof.
  intros [Ht Hr]. unfold elapse.
  destruct Ht as [Ht | (t & Ht & Hc & Hcap & Hv & Hlo & Hhi)]; rewrite Ht; cbn.
  - split; [now left | exact Hr].
  - destruct (due t <=? clock s + d) eqn:Hdue; cbn.
    + split; [now left|]. apply Forall_app. split; [exact Hr|].
      constructor; [|constructor]. cbn. now rewrite Hcap.
    + apply Nat.leb_gt in Hdue. split; [|exact Hr].
      right. exists t. repeat split; auto. cbn [clock]. lia.
Qed.

Lemma consistent_settle (s : state) (rid : nat) (r : fetched) :
  consistent s -> consistent (settle rid r s).
Proof.
  intros Hs. unfold settle.
  destruct (existsb (Nat.eqb rid) (in_flight s)); [|exact Hs].
  destruct r; exact Hs.
Qed.

Lemma consistent_run (script : list action) :
  forall s, consistent s -> consistent (run s script).
Proof.
  induction script as [|a script IH]; intros s Hs; [exact Hs|].
  apply IH. destruct a; cbn;
    [now apply consistent_change | now apply consistent_elapse
     | now apply consistent_settle].
Qed.

(** X11.  Whatever the user types and whenever the responses arrive, at
    most one debounce timer is scheduled; it belongs to the current
    value of the input, which is not blank, and it is due within the
    delay. *)
Theorem at_most_one_timer :
  forall (script : list action),
    let s := run initial script in
    List.length (timers s) <= 1 /\
    forall t, In t (timers s) ->
              captured t = query s /\ valid_query (query s) /\
              clock s < due t <= clock s + delay.
Proof.
  intros script s.
  destruct (consistent_run script consistent_initial) as [Ht _]. fold s in Ht.
  destruct Ht as [Ht | (t & Ht & _ & Hcap & Hv & Hlo & Hhi)]; rewrite Ht.
  - split; [simpl; lia | intros t []].
  - split; [simpl; lia|]. intros t' [<- | []]. auto.
Qed.

(** X12.  A blank value is never searched: every request the component
    has issued, in any run, is for a query that is not empty after
    trimming. *)
Theorem never_searches_blank :
  forall (script : list action),
    Forall (fun r => valid_query (snd r)) (requests (run initial script)).
Proof.
  intros script. apply (consistent_run script consistent_initial).
Qed.

(** X13.  After a change of the input nothing is searched for as long as
    the delay has not passed: a change followed by a shorter wait leaves
    the log of requests as it was, in any run. *)
Theorem change_opens_quiet_period :
  forall (script : list action) (v : str) (d : nat),
    v <> query (run initial script) ->
    d < delay ->
    requests (run initial (script ++ [Input v; Elapse d]))
    = requests (run initial script).
Proof.
  intros script v d Hne Hd. rewrite run_app. cbn.
  set (s := run initial script) in *.
  pose proof (consistent_run script consistent_initial) as Hs. fold s in Hs.
  destruct (change_timers Hs Hne) as (_ & Hc & Hr & Hcase).
  unfold elapse.
  destruct Hcase as [(_ & Ht & _) | (_ & Ht & _)]; rewrite Ht; cbn; [exact Hr|].
  rewrite Hc.
  assert (E : (clock s + delay <=? clock s + d) = false) by (apply Nat.leb_gt; lia).
  rewrite E. exact Hr.
Qed.

(** X14.  The clear button.  In any run in which the input is not
    empty, clearing it empties the input, cancels the scheduled timer,
    empties the results and leaves nothing rendered; no search is issued
    afterwards, however long one waits. *)
Theorem clear_resets_session :
  forall (script : list action),
    let s := run initial script in
    query s <> [] ->
    let s' := handleClear s in
    query s' = [] /\ timers s' = [] /\ results s' = [] /\
    hasSearched s' = false /\ isLoading s' = false /\ cards s' = [] /\
    forall d, requests (elapse d s') = requests s.
Proof.
  intros script s Hq s'.
  pose proof (consistent_run script consistent_initial) as Hs. fold s in Hs.
  assert (Hne : [] <> query s) by congruence.
  destruct (change_timers Hs Hne) as (Hquery & _ & Hr & Hcase).
  fold (handleClear s) in Hquery, Hr, Hcase. fold s' in Hquery, Hr, Hcase.
  destruct Hcase as [(_ & Ht & Hres & Hhas & Hload) | (Hv & _)];
    [|exfalso; now apply Hv].
  repeat split; auto.
  - unfold cards. now rewrite Hhas.
  - intros d. unfold elapse. rewrite Ht. cbn. exact Hr.
Qed.

End SessionRuns.

(** ** From the handler's answer to the rendered cards *)

Section EndToEnd.
Import Backend Session.

Lemma normalize_title (r : result) : item_title (normalize r) <> [].
Proof.
  destruct r as [id name d c p sc | id title c a tg sc]; simpl.
  - destruct name as [[|ch n]|]; discriminate.
  - destruct title as [[|ch n]|]; discriminate.
Qed.

(** X15.  What the page makes of the handler's answer.  When the answer
    of [globalSearch] reaches a search that is in flight, loading ends;
    for status 200 the results become the ranked results of the answer,
    one entry each in the same order, every one with a title that is not
    empty (the zero-result body gives the empty list); for any other
    status the error flag is set, the results are emptied and no card is
    rendered. *)
Theorem answer_reaches_page :
  forall (Product : Model ProductDoc) (Article : Model ArticleDoc)
         (req : request) (w w' : world) (resp : response)
         (s : state) (rid : nat),
    globalSearch Product Article req w = (Return resp, w') ->
    In rid (in_flight s) ->
    let s' := settle rid (receive resp) s in
    isLoading s' = false /\
    ((status resp = 200 /\
      exists rs, body_get "results" (body resp) = Some (JResults rs) /\
                 results s' = map normalize rs /\
                 Forall (fun it => item_title it <> []) (results s') /\
                 error s' = error s) \/
     (status resp <> 200 /\ error s' = true /\ results s' = [] /\ cards s' = [])).
Proof.
  intros Product Article req w w' resp s rid Hrun Hin s'.
  assert (Hfl : existsb (Nat.eqb rid) (in_flight s) = true).
  { apply existsb_exists. exists rid. split; [exact Hin | apply Nat.eqb_refl]. }
  destruct (globalSearch_cases Product Article req w) as (resp0 & w0 & Hrun0 & Hcase).
  rewrite Hrun in Hrun0. injection Hrun0 as <- <-.
  unfold s', settle. rewrite Hfl.
  assert (Hcards : forall s0, error s0 = true -> cards s0 = []).
  { intros s0 E. unfold cards. rewrite E. now destruct (negb (hasSearched s0)). }
  destruct Hcase as [(_ & -> & _) | [(_ & e & ->) | [(_ & q & rs & _ & _ & ->)
                    | (_ & q & _ & ->)]]]; cbn.
  - split; [reflexivity|]. right. repeat split; auto. discriminate.
  - split; [reflexivity|]. right. repeat split; auto. discriminate.
  - split; [reflexivity|]. left. split; [reflexivity|].
    exists rs. repeat split.
    apply Forall_forall. intros it Hit. apply in_map_iff in Hit.
    destruct Hit as (r & <- & _). apply normalize_title.
  - split; [reflexivity|]. left. split; [reflexivity|].
    exists []. repeat split. constructor.
Qed.

End EndToEnd.

(** ** The search session and the handler together *)

Section SessionAndHandler.
Import Backend Session.

(** X16.  Every change to a value that is not blank is searched once the
    delay has passed: in any run, such a change followed by a wait of at
    least the delay adds exactly one request to the log, for the new
    value, issued one delay after the change. *)
Theorem change_is_searched_after_delay :
  forall (script : list action) (v : str) (d : nat),
    v <> query (run initial script) ->
    valid_query v ->
    delay <= d ->
    requests (run initial (script ++ [Input v; Elapse d]))
    = (requests (run initial script)
         ++ [(clock (run initial script) + delay, v)])%list.
Proof.
  intros script v d Hne Hv Hd. rewrite run_app. cbn.
  set (s := run initial script) in *.
  pose proof (consistent_run script consistent_initial) as Hs. fold s in Hs.
  destruct (change_timers Hs Hne) as (_ & Hc & Hr & Hcase).
  unfold elapse.
  destruct Hcase as [(Hn & _) | (_ & Ht & _)]; [contradiction|].
  rewrite Ht. cbn. rewrite Hc.
  assert (E : (clock s + delay <=? clock s + d) = true) by (apply Nat.leb_le; lia).
  rewrite E. cbn. now rewrite Hr.
Qed.

(** X17.  What the page asks is never rejected as blank: for every
    request the component has issued in any run, the handler, given the
    query of that request, does not answer 400.  (The query string is
    taken to reach the handler as it was sent.) *)
Theorem page_requests_pass_validation :
  forall (script : list action) (time : nat) (q : str)
         (Product : Model ProductDoc) (Article : Model ArticleDoc) (w : world),
    In (time, q) (requests (run initial script)) ->
    exists resp w',
      globalSearch Product Article {| query_q := QString q |} w = (Return resp, w') /\
      status resp <> 400.
Proof.
  intros script time q Product Article w Hin.
  destruct (consistent_run script consistent_initial) as [_ Hall].
  rewrite Forall_forall in Hall. pose proof (Hall _ Hin) as Hv. simpl in Hv.
  destruct (globalSearch_cases Product Article {| query_q := QString q |} w)
    as (resp & w' & Hrun & Hcase).
  exists resp, w'. split; [exact Hrun|].
  destruct Hcase as [(Hb & _) | [(_ & e & ->) | [(_ & s & rs & _ & _ & ->)
                    | (_ & s & _ & ->)]]]; try discriminate.
  exfalso. now apply (valid_not_blank Hv).
Qed.

End SessionAndHandler.

(** ** Runs on the sample data *)

Section ExtraRuns.
Import Backend Session.

Lemma source_failure_aborts_witness :
  globalSearch (Product_model pattern_engine MoreSamples.unreachable) Samples.Article
               (Samples.get "laptop") start
  = (Return {| status := 500;
               body := [("success", JBool false);
                        ("message", JStr (lit "Server error occurred"));
                        ("error", JStr (lit "connect ECONNREFUSED"))]%string |},
     {| now := 30;
        trace := [Dispatched "products" 0; Completed "products" 30] |}).
Proof.
  apply (@source_failure_aborts (Product_model pattern_engine MoreSamples.unreachable)
           Samples.Article (lit "laptop") (lit "connect ECONNREFUSED") start).
  - vm_compute. discriminate.
  - left. reflexivity.
Defined.

Lemma found_body_witness :
  exists resp,
    globalSearch Samples.Product Samples.Article (Samples.get "mongodb") start
    = (Return resp, after_query Samples.articles (after_query Samples.products start)) /\
    status resp = 200 /\
    map fst (body resp) = ["success"; "count"; "query"; "results"]%string /\
    body_get "count" (body resp) = Some (JNum (1 + 1)) /\
    body_get "query" (body resp) = Some (JStr (lit "mongodb")).
Proof.
  apply (@found_body Samples.Product Samples.Article (lit "mongodb") start
           (after_query Samples.products start)
           (after_query Samples.articles (after_query Samples.products start))
           [project_product product_projection Samples.handbook]
           [project_article article_projection Samples.text_indexes]).
  - vm_compute. discriminate.
  - vm_compute. reflexivity.
  - vm_compute. reflexivity.
  - simpl. lia.
Defined.

Lemma plain_term_finds_substrings_witness :
  exists resp,
    globalSearch (Product_model pattern_engine Samples.products)
                 (Article_model pattern_engine Samples.articles)
                 (Samples.get "lap") start
    = (Return resp, after_query Samples.articles (after_query Samples.products start)) /\
    status resp = 200 /\
    body_get "results" (body resp)
    = Some (JResults
              (map of_product
                 (map (project_product product_projection)
                    (filter (fun d => mentions (lit "lap")
                                        [p_name d; p_description d; p_category d])
                            (documents Samples.products)))
               ++ map of_article
                 (map (project_article article_projection)
                    (filter (fun d => mentions (lit "lap")
                                        [a_title d; a_content d; a_author d])
                            (documents Samples.articles))))).
Proof.
  apply (@plain_term_finds_substrings Samples.products Samples.articles (lit "lap") start).
  - vm_compute. discriminate.
  - repeat constructor.
  - reflexivity.
  - reflexivity.
Defined.

Lemma blank_query_highlights_nothing_witness :
  HighlightedText (lit "Laptop Stand") (lit "  ") = Some [plain (lit "Laptop Stand")].
Proof.
  apply (@blank_query_highlights_nothing (lit "Laptop Stand") (lit "  ")).
  reflexivity.
Defined.

Lemma query_case_is_ignored_witness :
  HighlightedText (lit "Laptop Screen Replacement 15.6 inch") (lit "LAPTOP Screen")
  = HighlightedText (lit "Laptop Screen Replacement 15.6 inch") (lit "laptop screen").
Proof.
  apply (@query_case_is_ignored (lit "Laptop Screen Replacement 15.6 inch")
           (lit "LAPTOP Screen") (lit "laptop screen")).
  reflexivity.
Defined.

Lemma token_highlights_itself_witness :
  HighlightedText (lit "(c++|c#)?") (lit "(c++|c#)?")
  = Some [plain []; {| span_text := lit "(c++|c#)?"; highlighted := true |}; plain []].
Proof.
  apply (@token_highlights_itself (lit "(c++|c#)?")).
  split; [discriminate | reflexivity].
Defined.

Lemma change_opens_quiet_period_witness :
  requests (run initial (MoreSamples.searching ++ [Input (lit "mongodb i"); Elapse 149]))
  = requests (run initial MoreSamples.searching).
Proof.
  apply (@change_opens_quiet_period MoreSamples.searching (lit "mongodb i") 149).
  - vm_compute. discriminate.
  - unfold delay. lia.
Defined.

Lemma change_is_searched_after_delay_witness :
  requests (run initial (MoreSamples.searching ++ [Input (lit "mongodb i"); Elapse 150]))
  = (requests (run initial MoreSamples.searching)
       ++ [(clock (run initial MoreSamples.searching) + delay, lit "mongodb i")])%list.
Proof.
  apply (@change_is_searched_after_delay MoreSamples.searching (lit "mongodb i") 150).
  - vm_compute. discriminate.
  - vm_compute. discriminate.
  - unfold delay. lia.
Defined.

Lemma clear_resets_session_witness :
  let s := run initial MoreSamples.searching in
  let s' := handleClear s in
  query s' = [] /\ timers s' = [] /\ results s' = [] /\
  hasSearched s' = false /\ isLoading s' = false /\ cards s' = [] /\
  forall d, requests (elapse d s') = requests s.
Proof.
  apply (@clear_resets_session MoreSamples.searching).
  vm_compute. discriminate.
Defined.

Lemma answer_reaches_page_witness :
  let resp := found (lit "mongodb")
                [of_product (project_product product_projection Samples.handbook);
                 of_article (project_article article_projection Samples.text_indexes)] in
  let s := run initial MoreSamples.searching in
  let s' := settle 0 (receive resp) s in
  isLoading s' = false /\
  ((status resp = 200 /\
    exists rs, body_get "results" (body resp) = Some (JResults rs) /\
               results s' = map normalize rs /\
               Forall (fun it => item_title it <> []) (results s') /\
               error s' = error s) \/
   (status resp <> 200 /\ error s' = true /\ results s' = [] /\ cards s' = [])).
Proof.
  apply (@answer_reaches_page Samples.Product Samples.Article (Samples.get "mongodb")
           start (after_query Samples.articles (after_query Samples.products start))
           _ (run initial MoreSamples.searching) 0).
  - vm_compute. reflexivity.
  - vm_compute. left. reflexivity.
Defined.

Lemma page_requests_pass_validation_witness :
  exists resp w',
    globalSearch Samples.Product Samples.Article (Samples.get "mongodb") start
    = (Return resp, w') /\
    status resp <> 400.
Proof.
  apply (@page_requests_pass_validation MoreSamples.searching 150 (lit "mongodb")
           Samples.Product Samples.Article start).
  vm_compute. left. reflexivity.
Defined.

End ExtraRuns.
